(** * Unordered comparison of two XML element trees

    A shallow embedding of [compare_func.py]: the element signature, the
    recursive comparator [compare_elements_unordered] with its two
    append-only logs, and the outcome reported by [compare_xml_files].

    Conventions of the embedding.
    - A Python [str] is the list of its Unicode code points; comparing two
      strings is comparing those lists lexicographically, as Python does.
    - An element carries its tag, its attributes as the list of (name,
      value) items that [attrib.items()] returns, in document order, its
      optional text and the list of its children.  A name is repeated in
      that list only on a node recovered from markup that repeats it.  The
      model covers trees of element nodes.
    - Each f-string appended to a log is a constructor of [LogEntry] holding
      the interpolated values; [list.append] is [l ++ [x]].
    - Iterating over a Python [set] visits its members in an order fixed by
      the hashes of the members; the embedding takes that order as a
      parameter ([KeyOrder]) and the theorems hold for every order that
      enumerates the right keys once each. *)

From Stdlib Require Import String Ascii.
From Stdlib Require Import List NArith Bool Arith Lia Permutation Sorted.
Import ListNotations.
Local Open Scope list_scope.

Set Implicit Arguments.

(** ** Strings *)

Definition char := N.
Definition str := list char.

(** A [str] literal written with printable ASCII characters. *)
Definition py (s : string) : str :=
  map N_of_ascii (list_ascii_of_string s).

Definition str_compare (a b : str) : comparison := list_compare N.compare a b.

Definition str_eqb (a b : str) : bool :=
  match str_compare a b with Eq => true | _ => false end.

(** [str.isspace] on one code point: the characters [str.strip] removes. *)
Definition isspace (c : char) : bool :=
  ((9 <=? c) && (c <=? 13) || (28 <=? c) && (c <=? 32)
   || (c =? 133) || (c =? 160) || (c =? 5760)
   || (8192 <=? c) && (c <=? 8202)
   || (c =? 8232) || (c =? 8233) || (c =? 8239) || (c =? 8287)
   || (c =? 12288))%N.

(** The code points Python counts as whitespace. *)
Definition whitespace : list char :=
  [9; 10; 11; 12; 13; 28; 29; 30; 31; 32; 133; 160; 5760;
   8192; 8193; 8194; 8195; 8196; 8197; 8198; 8199; 8200; 8201; 8202;
   8232; 8233; 8239; 8287; 12288]%N.

Fixpoint lstrip (s : str) : str :=
  match s with
  | c :: r => if isspace c then lstrip r else s
  | [] => []
  end.

Definition rstrip (s : str) : str := rev (lstrip (rev s)).

Definition strip (s : str) : str := rstrip (lstrip s).

(** ** Tree nodes *)

Definition Item := (str * str)%type.
Definition Attrib := list Item.

#[warnings="-register-all"]
Inductive Element : Type :=
  mkElement (tag : str) (attrib : Attrib) (text : option str)
            (children : list Element).

Definition tag (e : Element) : str :=
  match e with mkElement t _ _ _ => t end.
Definition attrib (e : Element) : Attrib :=
  match e with mkElement _ a _ _ => a end.
Definition text (e : Element) : option str :=
  match e with mkElement _ _ x _ => x end.
Definition children (e : Element) : list Element :=
  match e with mkElement _ _ _ c => c end.

(** The keys of an attribute mapping are unique, at every node. *)
Definition dict_keys (d : Attrib) : list str := map fst d.

Fixpoint unique_keys (ks : list str) : bool :=
  match ks with
  | [] => true
  | k :: r => negb (existsb (str_eqb k) r) && unique_keys r
  end.

Fixpoint well_formed (e : Element) : bool :=
  match e with
  | mkElement _ a _ cs => unique_keys (dict_keys a) && forallb well_formed cs
  end.

(** ** Element signature *)

(** Python's order on tuples [(name, value)]. *)
Definition item_compare (p q : Item) : comparison :=
  match str_compare (fst p) (fst q) with
  | Eq => str_compare (snd p) (snd q)
  | c => c
  end.

Definition item_leb (p q : Item) : bool :=
  match item_compare p q with Gt => false | _ => true end.

Fixpoint insert_sorted (p : Item) (l : list Item) : list Item :=
  match l with
  | [] => [p]
  | q :: r => if item_leb p q then p :: l else q :: insert_sorted p r
  end.

(** [sorted(items)]: a stable sort. *)
Fixpoint sorted (l : list Item) : list Item :=
  match l with
  | [] => []
  | p :: r => insert_sorted p (sorted r)
  end.

Definition item_le (p q : Item) : Prop := item_leb p q = true.

Definition Signature := (str * list Item * str)%type.

(** [element.text or ""] *)
Definition text_or_empty (x : option str) : str :=
  match x with
  | Some s => s
  | None => []
  end.

Definition element_signature (element : Element) : Signature :=
  (tag element, sorted (attrib element), strip (text_or_empty (text element))).

Definition sig_eq_dec (a b : Signature) : {a = b} + {a <> b}.
Proof. repeat decide equality; apply N.eq_dec. Defined.

Definition sig_eqb (a b : Signature) : bool :=
  if sig_eq_dec a b then true else false.

(** ** Attribute mappings compared as dictionaries *)

(** [attrib.get(k)]: the value of the first item with that name, [None]
    when there is none. *)
Fixpoint dict_get (d : Attrib) (k : str) : option str :=
  match d with
  | [] => None
  | (k', v) :: r => if str_eqb k' k then Some v else dict_get r k
  end.

Definition str_eq_dec : forall a b : str, {a = b} + {a <> b} :=
  list_eq_dec N.eq_dec.

(** [len(dict(attrib))]: the number of distinct names. *)
Definition dict_len (d : Attrib) : nat :=
  length (nodup str_eq_dec (dict_keys d)).

(** [a == b] on attributes.  lxml compares the two as dictionaries, each
    name with the value [attrib[name]], which [dict_get] gives: they are
    equal when they have as many names and every name of [a] has the same
    value in [b]. *)
Definition dict_eqb (a b : Attrib) : bool :=
  (dict_len a =? dict_len b)
  && forallb (fun name => match dict_get a name, dict_get b name with
                          | Some v, Some w => str_eqb v w
                          | _, _ => false
                          end) (dict_keys a).

(** ** Sibling groups: [defaultdict(list)] keyed by signature *)

Section Groups.
Variable A : Type.

Definition Groups := list (Signature * list A).

(** [groups[key].append(x)] *)
Fixpoint group_append (key : Signature) (x : A) (g : Groups) : Groups :=
  match g with
  | [] => [(key, [x])]
  | (k, l) :: r =>
      if sig_eqb k key then (k, l ++ [x]) :: r
      else (k, l) :: group_append key x r
  end.

(** [for x in xs: groups[key_of(x)].append(x)] *)
Definition group_by (key_of : A -> Signature) (xs : list A) : Groups :=
  fold_left (fun g x => group_append (key_of x) x g) xs [].

Definition keys (g : Groups) : list Signature := map fst g.

(** [key in groups] *)
Definition contains (g : Groups) (key : Signature) : bool :=
  existsb (fun kl => sig_eqb (fst kl) key) g.

(** [groups[key]] *)
Fixpoint group_get (g : Groups) (key : Signature) : list A :=
  match g with
  | [] => []
  | (k, l) :: r => if sig_eqb k key then l else group_get r key
  end.

(** The members of [xs] with signature [key], in the order of [xs]. *)
Definition with_key (key_of : A -> Signature) (key : Signature)
    (xs : list A) : list A :=
  filter (fun x => sig_eqb (key_of x) key) xs.
End Groups.

Definition map_groups (A B : Type) (f : A -> B) (g : Groups A) : Groups B :=
  map (fun kl => (fst kl, map f (snd kl))) g.

(** ** The two logs *)

Inductive LogEntry : Type :=
| DifferentTags (path tag1 tag2 : str)
| MatchingTags (path tag1 : str)
| DifferentAttributes (at_ : str) (attrib1 attrib2 : Attrib)
| MatchingAttributes (at_ : str) (attrib1 : Attrib)
| MissingInSecond (at_ : str) (key : Signature)
| MissingInFirst (at_ : str) (key : Signature)
| DifferentCount (key : Signature) (at_ : str) (count1 count2 : nat)
| MatchingElement (key : Signature) (at_ : str) (count1 : nat).

Record Logs : Type := mkLogs {
  differences : list LogEntry;
  matches : list LogEntry
}.

Definition no_logs : Logs := mkLogs [] [].

Definition add_difference (logs : Logs) (r : LogEntry) : Logs :=
  mkLogs (differences logs ++ [r]) (matches logs).

Definition add_match (logs : Logs) (r : LogEntry) : Logs :=
  mkLogs (differences logs) (matches logs ++ [r]).

(** [f"{path}/{tag}"] *)
Definition child_path (path tag1 : str) : str := path ++ py "/"%string ++ tag1.

(** ** Iteration order of the key sets *)

Record KeyOrder : Type := mkKeyOrder {
  union_order : list Signature -> list Signature -> list Signature;
  intersection_order : list Signature -> list Signature -> list Signature
}.

Definition enumerates (l : list Signature) (P : Signature -> Prop) : Prop :=
  NoDup l /\ forall k, In k l <-> P k.

(** The order visits every member of [keys1 | keys2], respectively of
    [keys1 & keys2], once. *)
Definition faithful (o : KeyOrder) : Prop :=
  forall keys1 keys2,
    enumerates (union_order o keys1 keys2) (fun k => In k keys1 \/ In k keys2)
    /\ enumerates (intersection_order o keys1 keys2)
                  (fun k => In k keys1 /\ In k keys2).

(** One such order: first-seen order. *)
Definition first_seen : KeyOrder :=
  mkKeyOrder
    (fun keys1 keys2 => nodup sig_eq_dec (keys1 ++ keys2))
    (fun keys1 keys2 =>
       filter (fun k => existsb (sig_eqb k) keys2) (nodup sig_eq_dec keys1)).

(** ** The comparator *)

Section Comparator.
Variable order : KeyOrder.

(** The body of the loop over [set1.keys() | set2.keys()]. *)
Definition reconcile_key (B1 B2 : Type) (set1 : Groups B1)
    (set2 : Groups B2) (at_ : str) (logs : Logs) (key : Signature) : Logs :=
  if negb (contains set2 key) then
    add_difference logs (MissingInSecond at_ key)
  else if negb (contains set1 key) then
    add_difference logs (MissingInFirst at_ key)
  else
    let count1 := length (group_get set1 key) in
    let count2 := length (group_get set2 key) in
    if negb (count1 =? count2) then
      add_difference logs (DifferentCount key at_ count1 count2)
    else
      add_match logs (MatchingElement key at_ count1).

(** Recursion is on [element1].  Each child of [element1] is grouped
    together with the comparator already applied to it, so that the call
    on a pair [(child1, child2)] taken from the groups is a call on a child
    of [element1]; [compare_elements_unordered_eq] below states the
    function in the shape of the source. *)
Fixpoint compare_elements_unordered (element1 element2 : Element)
    (logs : Logs) (path : str) {struct element1} : Logs :=
  match element1 with
  | mkElement tag1 attrib1 _ children1 =>
      if negb (str_eqb tag1 (tag element2)) then
        add_difference logs (DifferentTags path tag1 (tag element2))
      else
        let logs := add_match logs (MatchingTags path tag1) in
        let logs :=
          if negb (dict_eqb attrib1 (attrib element2)) then
            add_difference logs
              (DifferentAttributes (child_path path tag1) attrib1
                 (attrib element2))
          else
            add_match logs
              (MatchingAttributes (child_path path tag1) attrib1) in
        let children2 := children element2 in
        let set1 :=
          group_by (fun cf => element_signature (fst cf))
            (map (fun child => (child, compare_elements_unordered child))
               children1) in
        let set2 := group_by element_signature children2 in
        let logs :=
          fold_left (reconcile_key set1 set2 (child_path path tag1))
            (union_order order (keys set1) (keys set2)) logs in
        fold_left
          (fun logs key =>
             fold_left
               (fun logs pair =>
                  snd (fst pair) (snd pair) logs (child_path path tag1))
               (combine (group_get set1 key) (group_get set2 key)) logs)
          (intersection_order order (keys set1) (keys set2)) logs
  end.

(** The steps of the comparator on their own, for the statements. *)

(** Step 3, lines 37-40. *)
Definition attribute_step (element1 element2 : Element) (path : str)
    (logs : Logs) : Logs :=
  if negb (dict_eqb (attrib element1) (attrib element2)) then
    add_difference logs
      (DifferentAttributes (child_path path (tag element1))
         (attrib element1) (attrib element2))
  else
    add_match logs
      (MatchingAttributes (child_path path (tag element1))
         (attrib element1)).

(** Steps 4 and 5, lines 43-69. *)
Definition reconcile (element1 element2 : Element) (path : str)
    (logs : Logs) : Logs :=
  let set1 := group_by element_signature (children element1) in
  let set2 := group_by element_signature (children element2) in
  fold_left (reconcile_key set1 set2 (child_path path (tag element1)))
    (union_order order (keys set1) (keys set2)) logs.

(** The pairs [(child1, child2)] the loops of lines 72-73 produce, in the
    order they produce them. *)
Definition recursion_pairs (element1 element2 : Element)
    : list (Element * Element) :=
  let set1 := group_by element_signature (children element1) in
  let set2 := group_by element_signature (children element2) in
  flat_map (fun key => combine (group_get set1 key) (group_get set2 key))
    (intersection_order order (keys set1) (keys set2)).
End Comparator.

(** Both logs of [b] after those of [a]. *)
Definition app_logs (a b : Logs) : Logs :=
  mkLogs (differences a ++ differences b) (matches a ++ matches b).

(** The logs of a sequence of runs, one after the other. *)
Definition concat_logs (ls : list Logs) : Logs :=
  fold_right app_logs no_logs ls.

(** ** The caller: [compare_xml_files] *)

(** The line printed by [compare_xml_files]. *)
Inductive Outcome : Type :=
| ParseFailed   (* "Failed to parse one or both XML files." *)
| Identical     (* "XML structures are identical. ..." *)
| Different.    (* "XML structures are different. ..." *)

(** What one run leaves behind: the printed line and the contents written
    to [match.txt] and [diff.txt] ([None]: the file is not written). *)
Record Run : Type := mkRun {
  printed : Outcome;
  match_txt : option (list LogEntry);
  diff_txt : option (list LogEntry)
}.

(** [not l] on a list. *)
Definition is_empty (A : Type) (l : list A) : bool :=
  match l with
  | [] => true
  | _ :: _ => false
  end.

(** Lines 91-105, once the comparison has returned. *)
Definition report (logs : Logs) : Run :=
  mkRun (if is_empty (differences logs) then Identical else Different)
        (Some (matches logs))
        (if is_empty (differences logs) then None
         else Some (differences logs)).

(** [root1] and [root2] are the results of [parse_with_recovery], [None]
    when the parser gives no tree. *)
Definition compare_xml_files (order : KeyOrder) (root1 root2 : option Element)
    : Run :=
  match root1, root2 with
  | Some r1, Some r2 =>
      report (compare_elements_unordered order r1 r2 no_logs (py "/"%string))
  | _, _ => mkRun ParseFailed None None
  end.

(** ** Notions used by the statements *)

(** How many direct children of [e] have signature [key]. *)
Definition occurrences (key : Signature) (e : Element) : nat :=
  count_occ sig_eq_dec (map element_signature (children e)) key.

(** The records of the loop over the union that cite [key]. *)
Definition about (key : Signature) (r : LogEntry) : bool :=
  match r with
  | MissingInSecond _ k | MissingInFirst _ k
  | DifferentCount k _ _ _ | MatchingElement k _ _ => sig_eqb k key
  | _ => false
  end.

(** A record of the run on [(B, A)] read as a record of the run on
    [(A, B)]: the two sides exchanged. *)
Definition swap_sides (r : LogEntry) : LogEntry :=
  match r with
  | DifferentTags p t1 t2 => DifferentTags p t2 t1
  | DifferentAttributes p a1 a2 => DifferentAttributes p a2 a1
  | MissingInSecond p k => MissingInFirst p k
  | MissingInFirst p k => MissingInSecond p k
  | DifferentCount k p n1 n2 => DifferentCount k p n2 n1
  | other => other
  end.

Definition swap_pair (A B : Type) (p : A * B) : B * A := (snd p, fst p).

(** ** Sample documents *)

(** [<name/>] *)
Definition empty_element (name : string) : Element :=
  mkElement (py name) [] None [].

(** [<name>children</name>] *)
Definition parent_of (name : string) (cs : list Element) : Element :=
  mkElement (py name) [] None cs.

(** [<r><c><x/></c><c><y/></c></r>] and the same with the two [<c>]
    exchanged. *)
Definition doc_xy : Element :=
  parent_of "r" [parent_of "c" [empty_element "x"];
                 parent_of "c" [empty_element "y"]].
Definition doc_yx : Element :=
  parent_of "r" [parent_of "c" [empty_element "y"];
                 parent_of "c" [empty_element "x"]].

(** [<p><c/><c/></p>] and [<p><c/></p>] *)
Definition doc_cc : Element :=
  parent_of "p" [empty_element "c"; empty_element "c"].
Definition doc_c : Element := parent_of "p" [empty_element "c"].

(** [<p><c/><d/></p>] and [<p><c/><c/><e/></p>] *)
Definition doc_cd : Element :=
  parent_of "p" [empty_element "c"; empty_element "d"].
Definition doc_cce : Element :=
  parent_of "p" [empty_element "c"; empty_element "c"; empty_element "e"].

(** ** Notions used by the further properties *)

(** Two attribute mappings that send every name to the same value. *)
Definition same_mapping (a b : Attrib) : Prop :=
  forall name, dict_get a name = dict_get b name.

(** Two trees that are the same up to the order of siblings: equal tags,
    the same attribute mapping, and children that can be paired off, each
    child with one of the same signature and similar to it.  The text of
    the two roots is left out; that of the descendants is in their
    signatures. *)
#[warnings="-register-all"]
Inductive similar : Element -> Element -> Prop :=
| similar_node t a a' x x' cs cs' pairs :
    same_mapping a a' ->
    Permutation (map fst pairs) cs ->
    Permutation (map snd pairs) cs' ->
    Forall (fun p => element_signature (fst p) = element_signature (snd p))
      pairs ->
    Forall (fun p => similar (fst p) (snd p)) pairs ->
    similar (mkElement t a x cs) (mkElement t a' x' cs').

(** The differences the loop over the union of the keys reports. *)
Definition structural (r : LogEntry) : bool :=
  match r with
  | MissingInSecond _ _ | MissingInFirst _ _ | DifferentCount _ _ _ _ => true
  | _ => false
  end.

(** The place a record cites after "at". *)
Definition location (r : LogEntry) : str :=
  match r with
  | DifferentTags p _ _ | MatchingTags p _
  | DifferentAttributes p _ _ | MatchingAttributes p _
  | MissingInSecond p _ | MissingInFirst p _
  | DifferentCount _ p _ _ | MatchingElement _ p _ => p
  end.

(** Another iteration order: first-seen order backwards. *)
Definition last_seen : KeyOrder :=
  mkKeyOrder
    (fun keys1 keys2 => rev (union_order first_seen keys1 keys2))
    (fun keys1 keys2 => rev (intersection_order first_seen keys1 keys2)).

(** [<a x="1" x="1"/>] as the recovering parser gives it, the attribute
    twice, and [<a x="1"/>]. *)
Definition node_xx : Element :=
  mkElement (py "a"%string)
    [(py "x"%string, py "1"%string); (py "x"%string, py "1"%string)] None [].
Definition node_x : Element :=
  mkElement (py "a"%string) [(py "x"%string, py "1"%string)] None [].

(** * Properties *)

(** ** Equality tests *)

Lemma str_compare_eq (a b : str) : str_compare a b = Eq <-> a = b.
Proof.
  unfold str_compare. apply list_compare_refl. exact N.compare_eq_iff.
Qed.

Lemma str_eqb_eq (a b : str) : str_eqb a b = true <-> a = b.
Proof.
  unfold str_eqb. rewrite <- str_compare_eq.
  destruct (str_compare a b); split; congruence.
Qed.

Lemma str_eqb_refl (a : str) : str_eqb a a = true.
Proof. now apply str_eqb_eq. Qed.

Lemma str_eqb_sym (a b : str) : str_eqb a b = str_eqb b a.
Proof.
  destruct (str_eqb a b) eqn:E, (str_eqb b a) eqn:F; trivial.
  - apply str_eqb_eq in E. subst. now rewrite str_eqb_refl in F.
  - apply str_eqb_eq in F. subst. now rewrite str_eqb_refl in E.
Qed.

Lemma sig_eqb_eq (a b : Signature) : sig_eqb a b = true <-> a = b.
Proof.
  unfold sig_eqb. destruct (sig_eq_dec a b); split; congruence.
Qed.

Lemma sig_eqb_refl (a : Signature) : sig_eqb a a = true.
Proof. now apply sig_eqb_eq. Qed.

Lemma sig_eqb_neq (a b : Signature) : sig_eqb a b = false <-> a <> b.
Proof.
  unfold sig_eqb. destruct (sig_eq_dec a b); split; congruence.
Qed.

(** ** Sibling groups *)

Section GroupFacts.
Variable A : Type.
Variable key_of : A -> Signature.

Lemma group_get_append (g : Groups A) x key :
  group_get (group_append (key_of x) x g) key =
  group_get g key ++ (if sig_eqb (key_of x) key then [x] else []).
Proof.
  induction g as [|[k l] r IH]; simpl.
  - destruct (sig_eqb (key_of x) key); reflexivity.
  - destruct (sig_eqb k (key_of x)) eqn:E; simpl.
    + apply sig_eqb_eq in E. subst k.
      destruct (sig_eqb (key_of x) key); trivial.
      now rewrite app_nil_r.
    + destruct (sig_eqb k key) eqn:F; trivial.
      apply sig_eqb_eq in F. subst k.
      destruct (sig_eqb (key_of x) key) eqn:G.
      * apply sig_eqb_eq in G. rewrite G, sig_eqb_refl in E. discriminate.
      * now rewrite app_nil_r.
Qed.

Lemma keys_append (g : Groups A) x k :
  In k (keys (group_append (key_of x) x g)) <-> In k (keys g) \/ k = key_of x.
Proof.
  induction g as [|[k' l] r IH]; simpl.
  - intuition.
  - destruct (sig_eqb k' (key_of x)) eqn:E; simpl.
    + apply sig_eqb_eq in E. subst k'. intuition.
    + rewrite IH. intuition.
Qed.

Lemma fold_group_get (xs : list A) (g : Groups A) key :
  group_get (fold_left (fun g x => group_append (key_of x) x g) xs g) key =
  group_get g key ++ with_key key_of key xs.
Proof.
  revert g. induction xs as [|x xs IH]; intros g; simpl.
  - now rewrite app_nil_r.
  - rewrite IH, group_get_append, <- app_assoc.
    now destruct (sig_eqb (key_of x) key).
Qed.

Lemma fold_keys (xs : list A) (g : Groups A) k :
  In k (keys (fold_left (fun g x => group_append (key_of x) x g) xs g)) <->
  In k (keys g) \/ In k (map key_of xs).
Proof.
  revert g. induction xs as [|x xs IH]; intros g; simpl.
  - intuition.
  - rewrite IH, keys_append. intuition.
Qed.

(** [groups[key]] holds the members with that signature, in order. *)
Lemma group_get_group_by (xs : list A) key :
  group_get (group_by key_of xs) key = with_key key_of key xs.
Proof. unfold group_by. now rewrite fold_group_get. Qed.

Lemma keys_group_by (xs : list A) k :
  In k (keys (group_by key_of xs)) <-> In k (map key_of xs).
Proof. unfold group_by. rewrite fold_keys. simpl. intuition. Qed.

Lemma contains_keys (g : Groups A) k :
  contains g k = true <-> In k (keys g).
Proof.
  unfold contains, keys. rewrite existsb_exists, in_map_iff.
  split; intros [kl [H1 H2]]; exists kl.
  - apply sig_eqb_eq in H2. now split.
  - split; trivial. now apply sig_eqb_eq.
Qed.

Lemma with_key_nil (xs : list A) key :
  ~ In key (map key_of xs) -> with_key key_of key xs = [].
Proof.
  induction xs as [|x xs IH]; simpl; intros H; trivial.
  destruct (sig_eqb (key_of x) key) eqn:E.
  - apply sig_eqb_eq in E. tauto.
  - apply IH. tauto.
Qed.

Lemma with_key_length (xs : list A) key :
  length (with_key key_of key xs) = count_occ sig_eq_dec (map key_of xs) key.
Proof.
  induction xs as [|x xs IH]; simpl; trivial.
  unfold sig_eqb. destruct (sig_eq_dec (key_of x) key); simpl; now rewrite IH.
Qed.

Lemma with_key_In (xs : list A) key x :
  In x (with_key key_of key xs) <-> In x xs /\ key_of x = key.
Proof. unfold with_key. now rewrite filter_In, sig_eqb_eq. Qed.
End GroupFacts.

(** Grouping the children paired with a function of them is grouping the
    children. *)
Lemma group_by_map (A B : Type) (f : A -> B) (key_of : A -> Signature)
    (key_of' : B -> Signature) (xs : list A) :
  (forall x, key_of' (f x) = key_of x) ->
  group_by key_of' (map f xs) = map_groups f (group_by key_of xs).
Proof.
  intros Hk. unfold group_by.
  change (@nil (Signature * list B))
    with (map_groups f (@nil (Signature * list A))).
  generalize (@nil (Signature * list A)) as g.
  induction xs as [|x xs IH]; intros g; simpl; trivial.
  rewrite <- IH. f_equal. rewrite Hk.
  clear IH. induction g as [|[k l] r IHg]; simpl; trivial.
  destruct (sig_eqb k (key_of x)); simpl.
  - now rewrite map_app.
  - now rewrite IHg.
Qed.

Lemma keys_map_groups (A B : Type) (f : A -> B) (g : Groups A) :
  keys (map_groups f g) = keys g.
Proof. unfold keys, map_groups. rewrite map_map. reflexivity. Qed.

Lemma group_get_map_groups (A B : Type) (f : A -> B) (g : Groups A) key :
  group_get (map_groups f g) key = map f (group_get g key).
Proof.
  induction g as [|[k l] r IH]; simpl; trivial.
  now destruct (sig_eqb k key).
Qed.

Lemma contains_map_groups (A B : Type) (f : A -> B) (g : Groups A) key :
  contains (map_groups f g) key = contains g key.
Proof.
  unfold contains, map_groups. induction g as [|[k l] r IH]; simpl; trivial.
  now rewrite IH.
Qed.

(** ** The comparator in the shape of the source *)

Lemma Element_induction (P : Element -> Prop) :
  (forall t a x cs, Forall P cs -> P (mkElement t a x cs)) ->
  forall e, P e.
Proof.
  intros H. fix IH 1. intros [t a x cs]. apply H.
  induction cs as [|c cs IHcs]; constructor; [apply IH | exact IHcs].
Qed.

Lemma fold_left_ext_in (A B : Type) (f g : A -> B -> A) (l : list B) (a : A) :
  (forall a x, In x l -> f a x = g a x) -> fold_left f l a = fold_left g l a.
Proof.
  revert a. induction l as [|x l IH]; intros a H; simpl; trivial.
  rewrite H by now left. apply IH. intros; apply H; now right.
Qed.

Lemma fold_left_flat_map (A B C : Type) (f : A -> C -> A) (g : B -> list C)
    (l : list B) (a : A) :
  fold_left f (flat_map g l) a = fold_left (fun a k => fold_left f (g k) a) l a.
Proof.
  revert a. induction l as [|k l IH]; intros a; simpl; trivial.
  now rewrite fold_left_app, IH.
Qed.

Lemma reconcile_key_map_groups (A B C : Type) (f : A -> B) (set1 : Groups A)
    (set2 : Groups C) at_ logs key :
  reconcile_key (map_groups f set1) set2 at_ logs key =
  reconcile_key set1 set2 at_ logs key.
Proof.
  unfold reconcile_key.
  now rewrite contains_map_groups, group_get_map_groups, length_map.
Qed.

Lemma fold_combine_map (A B C L : Type) (f : A -> B) (h : B -> C -> L -> L)
    (l1 : list A) (l2 : list C) (logs : L) :
  fold_left (fun logs pair => h (fst pair) (snd pair) logs)
    (combine (map f l1) l2) logs =
  fold_left (fun logs pair => h (f (fst pair)) (snd pair) logs)
    (combine l1 l2) logs.
Proof.
  revert l2 logs.
  induction l1 as [|x l1 IH]; intros [|y l2] logs; simpl; trivial.
Qed.

(** [compare_elements_unordered] as the source has it: the tag check, the
    two records of the tag and attribute steps, the loop over the union of
    the keys and the nested loops over the intersection and the zipped
    groups, with the recursive call on each pair. *)
Lemma compare_elements_unordered_eq (order : KeyOrder)
    (element1 element2 : Element) (logs : Logs) (path : str) :
  compare_elements_unordered order element1 element2 logs path =
  if negb (str_eqb (tag element1) (tag element2)) then
    add_difference logs (DifferentTags path (tag element1) (tag element2))
  else
    let at_ := child_path path (tag element1) in
    let logs := add_match logs (MatchingTags path (tag element1)) in
    let logs :=
      if negb (dict_eqb (attrib element1) (attrib element2)) then
        add_difference logs
          (DifferentAttributes at_ (attrib element1) (attrib element2))
      else add_match logs (MatchingAttributes at_ (attrib element1)) in
    let set1 := group_by element_signature (children element1) in
    let set2 := group_by element_signature (children element2) in
    let logs :=
      fold_left (reconcile_key set1 set2 at_)
        (union_order order (keys set1) (keys set2)) logs in
    fold_left
      (fun logs key =>
         fold_left
           (fun logs pair =>
              compare_elements_unordered order (fst pair) (snd pair) logs at_)
           (combine (group_get set1 key) (group_get set2 key)) logs)
      (intersection_order order (keys set1) (keys set2)) logs.
Proof.
  destruct element1 as [tag1 attrib1 text1 children1].
  cbn [compare_elements_unordered tag attrib children].
  destruct (negb (str_eqb tag1 (tag element2))); trivial.
  cbv zeta.
  rewrite (group_by_map
             (fun child => (child, compare_elements_unordered order child))
             element_signature
             (fun cf => element_signature (fst cf))) by reflexivity.
  rewrite keys_map_groups.
  rewrite (fold_left_ext_in
             (reconcile_key
                (map_groups
                   (fun child =>
                      (child, compare_elements_unordered order child))
                   (group_by element_signature children1))
                (group_by element_signature (children element2))
                (child_path path tag1))
             (reconcile_key (group_by element_signature children1)
                (group_by element_signature (children element2))
                (child_path path tag1)))
    by (intros; apply reconcile_key_map_groups).
  apply fold_left_ext_in. intros a key _.
  rewrite group_get_map_groups.
  apply (fold_combine_map
           (fun child => (child, compare_elements_unordered order child))
           (fun cf child2 logs => snd cf child2 logs (child_path path tag1))).
Qed.

(** The same, by steps. *)
Lemma compare_elements_unordered_steps (order : KeyOrder)
    (element1 element2 : Element) (logs : Logs) (path : str) :
  compare_elements_unordered order element1 element2 logs path =
  if negb (str_eqb (tag element1) (tag element2)) then
    add_difference logs (DifferentTags path (tag element1) (tag element2))
  else
    fold_left
      (fun logs pair =>
         compare_elements_unordered order (fst pair) (snd pair) logs
           (child_path path (tag element1)))
      (recursion_pairs order element1 element2)
      (reconcile order element1 element2 path
         (attribute_step element1 element2 path
            (add_match logs (MatchingTags path (tag element1))))).
Proof.
  rewrite compare_elements_unordered_eq.
  destruct (negb (str_eqb (tag element1) (tag element2))); trivial.
  cbv zeta. unfold recursion_pairs. rewrite fold_left_flat_map.
  reflexivity.
Qed.

(** ** The logs only grow *)

Lemma app_logs_nil_l (a : Logs) : app_logs no_logs a = a.
Proof. now destruct a. Qed.

Lemma app_logs_nil_r (a : Logs) : app_logs a no_logs = a.
Proof. destruct a. unfold app_logs. simpl. now rewrite !app_nil_r. Qed.

Lemma app_logs_assoc (a b c : Logs) :
  app_logs a (app_logs b c) = app_logs (app_logs a b) c.
Proof. unfold app_logs. simpl. now rewrite !app_assoc. Qed.

Lemma add_difference_app (a b : Logs) r :
  add_difference (app_logs a b) r = app_logs a (add_difference b r).
Proof. unfold add_difference, app_logs. simpl. now rewrite app_assoc. Qed.

Lemma add_match_app (a b : Logs) r :
  add_match (app_logs a b) r = app_logs a (add_match b r).
Proof. unfold add_match, app_logs. simpl. now rewrite app_assoc. Qed.

Lemma attribute_step_app e1 e2 path (a b : Logs) :
  attribute_step e1 e2 path (app_logs a b) =
  app_logs a (attribute_step e1 e2 path b).
Proof.
  unfold attribute_step.
  destruct (negb (dict_eqb (attrib e1) (attrib e2)));
    [apply add_difference_app | apply add_match_app].
Qed.

Lemma reconcile_key_app (B1 B2 : Type) (set1 : Groups B1) (set2 : Groups B2)
    at_ (a b : Logs) key :
  reconcile_key set1 set2 at_ (app_logs a b) key =
  app_logs a (reconcile_key set1 set2 at_ b key).
Proof.
  unfold reconcile_key.
  repeat match goal with
         | |- context [if ?c then _ else _] => destruct c
         end; (apply add_difference_app || apply add_match_app).
Qed.

Lemma fold_left_app_logs (X : Type) (f : Logs -> X -> Logs) (l : list X) :
  (forall x, In x l -> forall a b, f (app_logs a b) x = app_logs a (f b x)) ->
  forall a b, fold_left f l (app_logs a b) = app_logs a (fold_left f l b).
Proof.
  induction l as [|x l IH]; intros H a b; simpl; trivial.
  rewrite H by now left. apply IH. intros; apply H; now right.
Qed.

Lemma fold_left_concat_logs (X : Type) (f : Logs -> X -> Logs) (l : list X) :
  (forall x, In x l -> forall a b, f (app_logs a b) x = app_logs a (f b x)) ->
  forall a,
    fold_left f l a = app_logs a (concat_logs (map (f no_logs) l)).
Proof.
  induction l as [|x l IH]; intros H a; simpl.
  - now rewrite app_logs_nil_r.
  - rewrite IH by (intros; apply H; now right).
    rewrite app_logs_assoc. f_equal.
    rewrite <- H by now left. now rewrite app_logs_nil_r.
Qed.

Lemma reconcile_app order e1 e2 path (a b : Logs) :
  reconcile order e1 e2 path (app_logs a b) =
  app_logs a (reconcile order e1 e2 path b).
Proof.
  unfold reconcile. cbv zeta. apply fold_left_app_logs.
  intros; apply reconcile_key_app.
Qed.

Lemma recursion_pairs_In order e1 e2 c1 c2 :
  In (c1, c2) (recursion_pairs order e1 e2) ->
  In c1 (children e1) /\ In c2 (children e2) /\
  element_signature c1 = element_signature c2.
Proof.
  unfold recursion_pairs. cbv zeta. rewrite in_flat_map.
  intros [key [_ H]]. rewrite !group_get_group_by in H.
  pose proof (in_combine_l _ _ _ _ H) as H1.
  pose proof (in_combine_r _ _ _ _ H) as H2.
  apply with_key_In in H1, H2. intuition congruence.
Qed.

Lemma compare_elements_unordered_app order e1 :
  forall e2 a b path,
    compare_elements_unordered order e1 e2 (app_logs a b) path =
    app_logs a (compare_elements_unordered order e1 e2 b path).
Proof.
  induction e1 as [t at1 x cs IH] using Element_induction.
  intros e2 a b path. rewrite !compare_elements_unordered_steps.
  destruct (negb (str_eqb (tag (mkElement t at1 x cs)) (tag e2))).
  - apply add_difference_app.
  - rewrite add_match_app, attribute_step_app, reconcile_app.
    apply fold_left_app_logs. intros [c1 c2] Hin a' b'. simpl.
    apply recursion_pairs_In in Hin. destruct Hin as [Hin _].
    simpl in Hin. rewrite Forall_forall in IH. now apply IH.
Qed.

(** What one run appends, as the concatenation of what its steps and its
    recursive calls append. *)
Lemma compare_elements_unordered_emitted order e1 e2 path :
  compare_elements_unordered order e1 e2 no_logs path =
  if negb (str_eqb (tag e1) (tag e2)) then
    mkLogs [DifferentTags path (tag e1) (tag e2)] []
  else
    app_logs
      (app_logs
         (attribute_step e1 e2 path (mkLogs [] [MatchingTags path (tag e1)]))
         (reconcile order e1 e2 path no_logs))
      (concat_logs
         (map (fun pair =>
                 compare_elements_unordered order (fst pair) (snd pair)
                   no_logs (child_path path (tag e1)))
            (recursion_pairs order e1 e2))).
Proof.
  rewrite compare_elements_unordered_steps.
  destruct (negb (str_eqb (tag e1) (tag e2))); trivial.
  rewrite fold_left_concat_logs
    by (intros; apply compare_elements_unordered_app).
  f_equal.
  rewrite <- reconcile_app. now rewrite app_logs_nil_r.
Qed.

Lemma compare_elements_unordered_from order e1 e2 logs path :
  compare_elements_unordered order e1 e2 logs path =
  app_logs logs (compare_elements_unordered order e1 e2 no_logs path).
Proof.
  rewrite <- (app_logs_nil_r logs) at 1.
  apply compare_elements_unordered_app.
Qed.

Lemma differences_concat_logs (ls : list Logs) :
  differences (concat_logs ls) = flat_map differences ls.
Proof. induction ls; simpl; trivial. now rewrite IHls. Qed.

Lemma matches_concat_logs (ls : list Logs) :
  matches (concat_logs ls) = flat_map matches ls.
Proof. induction ls; simpl; trivial. now rewrite IHls. Qed.

Lemma reconcile_emitted order e1 e2 path :
  reconcile order e1 e2 path no_logs =
  concat_logs
    (map (reconcile_key (group_by element_signature (children e1))
            (group_by element_signature (children e2))
            (child_path path (tag e1)) no_logs)
       (union_order order
          (keys (group_by element_signature (children e1)))
          (keys (group_by element_signature (children e2))))).
Proof.
  unfold reconcile. cbv zeta.
  rewrite fold_left_concat_logs by (intros; apply reconcile_key_app).
  apply app_logs_nil_l.
Qed.

(** ** The order on items and [sorted] *)

Lemma N_compare_trans (x y z : N) (c : comparison) :
  (x ?= y)%N = c -> (y ?= z)%N = c -> (x ?= z)%N = c.
Proof.
  destruct c; rewrite ?N.compare_eq_iff, ?N.compare_lt_iff, ?N.compare_gt_iff;
    lia.
Qed.

Lemma str_compare_antisym (a b : str) :
  str_compare b a = CompOpp (str_compare a b).
Proof.
  unfold str_compare. apply list_compare_antisym.
  - exact N.compare_eq_iff.
  - intros x y. apply N.compare_antisym.
Qed.

Lemma str_compare_trans (a b c : str) (r : comparison) :
  str_compare a b = r -> str_compare b c = r -> str_compare a c = r.
Proof.
  unfold str_compare. apply list_compare_trans.
  - exact N.compare_eq_iff.
  - exact N_compare_trans.
  - intros x y. apply N.compare_antisym.
Qed.

Lemma item_compare_eq (p q : Item) : item_compare p q = Eq <-> p = q.
Proof.
  destruct p as [k v], q as [k' v']. unfold item_compare. simpl.
  destruct (str_compare k k') eqn:E.
  - apply str_compare_eq in E. subst k'. rewrite str_compare_eq.
    split; congruence.
  - split; [discriminate|]. intros H. inversion H; subst.
    assert (str_compare k' k' = Eq) by now apply str_compare_eq.
    congruence.
  - split; [discriminate|]. intros H. inversion H; subst.
    assert (str_compare k' k' = Eq) by now apply str_compare_eq.
    congruence.
Qed.

Lemma item_compare_antisym (p q : Item) :
  item_compare q p = CompOpp (item_compare p q).
Proof.
  unfold item_compare.
  rewrite (str_compare_antisym (fst p) (fst q)).
  rewrite (str_compare_antisym (snd p) (snd q)).
  now destruct (str_compare (fst p) (fst q)).
Qed.

Lemma str_compare_refl (a : str) : str_compare a a = Eq.
Proof. now apply str_compare_eq. Qed.

Lemma item_compare_trans (p q r : Item) (c : comparison) :
  item_compare p q = c -> item_compare q r = c -> item_compare p r = c.
Proof.
  destruct p as [kp vp], q as [kq vq], r as [kr vr].
  unfold item_compare. simpl.
  destruct (str_compare kp kq) eqn:E1, (str_compare kq kr) eqn:E2;
    intros H1 H2;
    try (apply str_compare_eq in E1; subst kq);
    try (apply str_compare_eq in E2; subst kr);
    rewrite ?str_compare_refl, ?E1, ?E2; try congruence;
    try (rewrite (str_compare_trans _ _ _ E1 E2); congruence).
  eapply str_compare_trans; eauto.
Qed.

Lemma item_le_refl (p : Item) : item_le p p.
Proof.
  unfold item_le, item_leb.
  assert (item_compare p p = Eq) as -> by now apply item_compare_eq.
  reflexivity.
Qed.

Lemma item_le_total (p q : Item) : item_le p q \/ item_le q p.
Proof.
  unfold item_le, item_leb. rewrite (item_compare_antisym p q).
  destruct (item_compare p q); simpl; auto.
Qed.

Lemma item_le_antisym (p q : Item) : item_le p q -> item_le q p -> p = q.
Proof.
  unfold item_le, item_leb. rewrite (item_compare_antisym p q).
  destruct (item_compare p q) eqn:E; simpl; try discriminate.
  intros _ _. now apply item_compare_eq.
Qed.

Lemma item_le_trans (p q r : Item) : item_le p q -> item_le q r -> item_le p r.
Proof.
  unfold item_le, item_leb.
  destruct (item_compare p q) eqn:E1; try discriminate;
    destruct (item_compare q r) eqn:E2; try discriminate; intros _ _.
  - now rewrite (item_compare_trans _ _ _ E1 E2).
  - apply item_compare_eq in E1. subst q. now rewrite E2.
  - apply item_compare_eq in E2. subst r. now rewrite E1.
  - now rewrite (item_compare_trans _ _ _ E1 E2).
Qed.

Lemma insert_sorted_perm (p : Item) (l : list Item) :
  Permutation (p :: l) (insert_sorted p l).
Proof.
  induction l as [|q l IH]; simpl; trivial.
  destruct (item_leb p q); trivial.
  rewrite perm_swap. now constructor.
Qed.

Lemma sorted_perm (l : list Item) : Permutation l (sorted l).
Proof.
  induction l as [|p l IH]; simpl; trivial.
  rewrite <- insert_sorted_perm. now constructor.
Qed.

Lemma insert_sorted_ordered (p : Item) (l : list Item) :
  StronglySorted item_le l -> StronglySorted item_le (insert_sorted p l).
Proof.
  induction 1 as [|q l Hs IH Hq]; simpl.
  - repeat constructor.
  - destruct (item_leb p q) eqn:E.
    + constructor; [now constructor|].
      constructor; trivial.
      rewrite Forall_forall in *. intros r Hr.
      eapply item_le_trans; [exact E | now apply Hq].
    + constructor; trivial.
      rewrite Forall_forall in *. intros r Hr.
      apply (Permutation_in _ (Permutation_sym (insert_sorted_perm p l))) in Hr.
      destruct Hr as [<-|Hr]; [|now apply Hq].
      destruct (item_le_total p q) as [H|H]; trivial.
      unfold item_le in H. congruence.
Qed.

Lemma sorted_ordered (l : list Item) : StronglySorted item_le (sorted l).
Proof.
  induction l as [|p l IH]; simpl; [constructor|].
  now apply insert_sorted_ordered.
Qed.

Lemma ordered_perm_eq (l1 l2 : list Item) :
  StronglySorted item_le l1 -> StronglySorted item_le l2 ->
  Permutation l1 l2 -> l1 = l2.
Proof.
  intros H1. revert l2. induction H1 as [|p l1 Hs IH Hp]; intros l2 H2 HP.
  - now apply Permutation_nil in HP.
  - destruct H2 as [|q l2 Hs2 Hq].
    + symmetry in HP. now apply Permutation_nil in HP.
    + assert (p = q) as ->.
      { rewrite Forall_forall in Hp, Hq. apply item_le_antisym.
        - assert (In q (p :: l1)) as [->|Hin]
              by (eapply Permutation_in; [symmetry; exact HP | now left]).
          + apply item_le_refl.
          + now apply Hp.
        - assert (In p (q :: l2)) as [->|Hin]
              by (eapply Permutation_in; [exact HP | now left]).
          + apply item_le_refl.
          + now apply Hq. }
      f_equal. apply IH; trivial. now apply Permutation_cons_inv in HP.
Qed.

(** The result of [sorted] does not depend on the order of its input. *)
Lemma sorted_of_perm (l1 l2 : list Item) :
  Permutation l1 l2 -> sorted l1 = sorted l2.
Proof.
  intros HP. apply ordered_perm_eq; try apply sorted_ordered.
  now rewrite <- !sorted_perm.
Qed.

(** ** Dictionaries *)

Lemma unique_keys_NoDup (ks : list str) : unique_keys ks = true <-> NoDup ks.
Proof.
  induction ks as [|k ks IH]; simpl.
  - split; [constructor | trivial].
  - rewrite andb_true_iff, negb_true_iff, IH. split.
    + intros [H1 H2]. constructor; trivial. intros Hin.
      assert (existsb (str_eqb k) ks = true); [|congruence].
      apply existsb_exists. exists k. split; trivial. apply str_eqb_refl.
    + intros H. inversion H as [|? ? Hn Hd]; subst. split; trivial.
      destruct (existsb (str_eqb k) ks) eqn:E; trivial.
      apply existsb_exists in E. destruct E as [k' [Hin E]].
      apply str_eqb_eq in E. subst. contradiction.
Qed.

Lemma dict_get_In (d : Attrib) (k v : str) :
  NoDup (dict_keys d) -> (dict_get d k = Some v <-> In (k, v) d).
Proof.
  induction d as [|[k' v'] d IH]; simpl; intros Hd.
  - split; [discriminate | tauto].
  - inversion Hd as [|? ? Hn Hd']; subst.
    destruct (str_eqb k' k) eqn:E.
    + apply str_eqb_eq in E. subst k'. split.
      * intros H. left. congruence.
      * intros [H|H]; [congruence|].
        exfalso. apply Hn. unfold dict_keys. apply in_map_iff.
        now exists (k, v).
    + rewrite (IH Hd'). split; [tauto|].
      intros [H|H]; trivial. inversion H; subst.
      rewrite str_eqb_refl in E. discriminate.
Qed.

Lemma NoDup_items (d : Attrib) : NoDup (dict_keys d) -> NoDup d.
Proof. unfold dict_keys. apply NoDup_map_inv. Qed.

Lemma dict_get_None (d : Attrib) (k : str) :
  dict_get d k = None <-> ~ In k (dict_keys d).
Proof.
  induction d as [|[k' v] d IH]; simpl.
  - tauto.
  - destruct (str_eqb k' k) eqn:E.
    + apply str_eqb_eq in E. split; [discriminate | tauto].
    + rewrite IH. split; [|tauto]. intros H [H'|H']; [|tauto].
      subst. rewrite str_eqb_refl in E. discriminate.
Qed.

(** The attribute test holds exactly when both sides give every name the
    same value, repeated names or not. *)
Lemma dict_eqb_iff (a b : Attrib) :
  dict_eqb a b = true <-> forall k, dict_get a k = dict_get b k.
Proof.
  unfold dict_eqb, dict_len.
  rewrite andb_true_iff, Nat.eqb_eq, forallb_forall. split.
  - intros [Hl H] k.
    assert (incl (nodup str_eq_dec (dict_keys a))
                 (nodup str_eq_dec (dict_keys b))) as Hi.
    { intros x Hx. apply nodup_In in Hx. apply nodup_In.
      specialize (H x Hx). destruct (dict_get a x); [|discriminate].
      destruct (dict_get b x) eqn:E; [|discriminate].
      destruct (in_dec str_eq_dec x (dict_keys b)) as [Hin|Hin]; trivial.
      apply dict_get_None in Hin. congruence. }
    assert (incl (nodup str_eq_dec (dict_keys b))
                 (nodup str_eq_dec (dict_keys a))) as Hi'
        by (apply NoDup_length_incl; trivial; [apply NoDup_nodup | lia]).
    destruct (in_dec str_eq_dec k (dict_keys a)) as [Hin|Hin].
    + specialize (H k Hin).
      destruct (dict_get a k), (dict_get b k); try discriminate.
      apply str_eqb_eq in H. congruence.
    + assert (~ In k (dict_keys b)) as Hin'.
      { intros Hb. apply Hin. apply (nodup_In str_eq_dec), Hi'.
        now apply nodup_In. }
      apply dict_get_None in Hin, Hin'. congruence.
  - intros H. split.
    + apply Permutation_length, NoDup_Permutation; try apply NoDup_nodup.
      intros k. rewrite !nodup_In.
      destruct (in_dec str_eq_dec k (dict_keys a)) as [H1|H1],
               (in_dec str_eq_dec k (dict_keys b)) as [H2|H2];
        try tauto; exfalso.
      * apply dict_get_None in H2. rewrite <- H in H2.
        apply dict_get_None in H2. contradiction.
      * apply dict_get_None in H1. rewrite H in H1.
        apply dict_get_None in H1. contradiction.
    + intros k Hk. rewrite <- H.
      destruct (dict_get a k) eqn:E; [apply str_eqb_refl|].
      apply dict_get_None in E. contradiction.
Qed.

Lemma dict_eqb_refl (a : Attrib) :
  NoDup (dict_keys a) -> dict_eqb a a = true.
Proof. intros _. now apply dict_eqb_iff. Qed.

Lemma dict_eqb_sym (a b : Attrib) :
  NoDup (dict_keys a) -> NoDup (dict_keys b) -> dict_eqb a b = dict_eqb b a.
Proof.
  intros _ _.
  destruct (dict_eqb a b) eqn:E, (dict_eqb b a) eqn:F; trivial.
  - pose proof (proj1 (dict_eqb_iff a b) E) as H.
    assert (dict_eqb b a = true) by (apply dict_eqb_iff; now intros k).
    congruence.
  - pose proof (proj1 (dict_eqb_iff b a) F) as H.
    assert (dict_eqb a b = true) by (apply dict_eqb_iff; now intros k).
    congruence.
Qed.

Lemma same_mapping_perm (a b : Attrib) :
  NoDup (dict_keys a) -> NoDup (dict_keys b) ->
  (forall k, dict_get a k = dict_get b k) -> Permutation a b.
Proof.
  intros Ha Hb H. apply NoDup_Permutation; try now apply NoDup_items.
  intros [k v]. rewrite <- !dict_get_In by trivial. now rewrite H.
Qed.

(** ** First-seen order is faithful *)

Lemma first_seen_faithful : faithful first_seen.
Proof.
  intros keys1 keys2. simpl. split; split.
  - apply NoDup_nodup.
  - intros k. now rewrite nodup_In, in_app_iff.
  - apply NoDup_filter, NoDup_nodup.
  - intros k. rewrite filter_In, nodup_In, existsb_exists.
    split.
    + intros [H1 [k' [H2 H3]]]. apply sig_eqb_eq in H3. now subst.
    + intros [H1 H2]. split; trivial. exists k. split; trivial.
      apply sig_eqb_refl.
Qed.

(** ** Comparing a tree with itself *)

Lemma flat_map_nil (A B : Type) (f : A -> list B) (l : list A) :
  (forall x, In x l -> f x = []) -> flat_map f l = [].
Proof.
  induction l as [|x l IH]; intros H; simpl; trivial.
  rewrite H by now left. apply IH. intros; apply H; now right.
Qed.

Lemma in_combine_same (A : Type) (l : list A) (x y : A) :
  In (x, y) (combine l l) -> x = y.
Proof.
  induction l as [|z l IH]; simpl; [tauto|].
  intros [H|H]; [congruence | now apply IH].
Qed.

Lemma well_formed_inv t a x cs :
  well_formed (mkElement t a x cs) = true ->
  NoDup (dict_keys a) /\ forall c, In c cs -> well_formed c = true.
Proof.
  simpl. rewrite andb_true_iff, unique_keys_NoDup, forallb_forall. tauto.
Qed.

Lemma well_formed_attrib e :
  well_formed e = true -> NoDup (dict_keys (attrib e)).
Proof. destruct e. intros H. now apply well_formed_inv in H. Qed.

Lemma well_formed_child e c :
  well_formed e = true -> In c (children e) -> well_formed c = true.
Proof. destruct e. intros H. apply well_formed_inv in H. now apply H. Qed.

Lemma differences_self order :
  faithful order ->
  forall e, well_formed e = true ->
  forall path,
    differences (compare_elements_unordered order e e no_logs path) = [].
Proof.
  intros Hf. induction e as [t a x cs IH] using Element_induction.
  intros Hwf path. rewrite compare_elements_unordered_emitted.
  rewrite str_eqb_refl. simpl negb. cbv iota.
  apply well_formed_inv in Hwf. destruct Hwf as [Ha Hcs].
  unfold app_logs. simpl differences.
  unfold attribute_step. simpl attrib. rewrite dict_eqb_refl by trivial.
  simpl.
  rewrite reconcile_emitted, !differences_concat_logs,
    !flat_map_concat_map, !map_map, <- !flat_map_concat_map.
  simpl.
  rewrite !flat_map_nil; trivial.
  - intros [c1 c2] Hin. simpl.
    pose proof (recursion_pairs_In _ _ _ _ _ Hin) as [H1 _]. simpl in H1.
    assert (c1 = c2) as <-.
    { unfold recursion_pairs in Hin. cbv zeta in Hin.
      apply in_flat_map in Hin. destruct Hin as [k [_ Hin]].
      now apply in_combine_same in Hin. }
    rewrite Forall_forall in IH. apply IH; auto.
  - intros k Hin. destruct (Hf (keys (group_by element_signature cs))
                               (keys (group_by element_signature cs)))
      as [[_ Hu] _].
    apply Hu in Hin. assert (In k (keys (group_by element_signature cs))) as Hk
        by tauto.
    apply contains_keys in Hk. unfold reconcile_key. rewrite Hk. simpl.
    now rewrite Nat.eqb_refl.
Qed.

Lemma matches_head order e1 e2 path :
  tag e1 = tag e2 ->
  exists rest,
    matches (compare_elements_unordered order e1 e2 no_logs path) =
    MatchingTags path (tag e1) :: rest.
Proof.
  intros Ht. rewrite compare_elements_unordered_emitted.
  rewrite Ht, str_eqb_refl. simpl negb. cbv iota.
  unfold attribute_step.
  destruct (negb (dict_eqb (attrib e1) (attrib e2))); simpl; eauto.
Qed.

(** C5: comparing a well-formed tree with itself, from empty logs, leaves
    the differences log empty and the matches log non-empty. *)
Theorem self_comparison_identity (order : KeyOrder) (T : Element) :
  faithful order -> well_formed T = true ->
  let logs := compare_elements_unordered order T T no_logs (py "/"%string) in
  differences logs = [] /\ matches logs <> [].
Proof.
  intros Hf Hwf. split.
  - now apply differences_self.
  - destruct (matches_head order T T (py "/"%string) eq_refl) as [rest ->].
    discriminate.
Qed.

Lemma self_comparison_identity_witness :
  let logs :=
    compare_elements_unordered first_seen doc_xy doc_xy no_logs
      (py "/"%string) in
  differences logs = [] /\ matches logs <> [].
Proof.
  apply (@self_comparison_identity first_seen doc_xy).
  - exact first_seen_faithful.
  - reflexivity.
Defined.

(** ** Tag mismatch *)

(** C4: when the tags differ, the call appends one "Different tags" record
    at the current path and returns: nothing is appended to the matches,
    and the attributes, texts and children of the two nodes play no part;
    [<a/>] against [<b/>] at the root gives one difference and no match. *)
Theorem tag_mismatch_short_circuit (order : KeyOrder) :
  (forall e1 e2 logs path,
      tag e1 <> tag e2 ->
      compare_elements_unordered order e1 e2 logs path =
      mkLogs (differences logs ++ [DifferentTags path (tag e1) (tag e2)])
             (matches logs))
  /\ (forall t1 t2 a1 a2 a1' a2' x1 x2 x1' x2' cs1 cs2 cs1' cs2' logs path,
         t1 <> t2 ->
         compare_elements_unordered order
           (mkElement t1 a1 x1 cs1) (mkElement t2 a2 x2 cs2) logs path =
         compare_elements_unordered order
           (mkElement t1 a1' x1' cs1') (mkElement t2 a2' x2' cs2') logs path)
  /\ compare_elements_unordered order (empty_element "a") (empty_element "b")
       no_logs (py "/"%string) =
     mkLogs [DifferentTags (py "/"%string) (py "a"%string) (py "b"%string)] [].
Proof.
  assert (forall e1 e2 logs path,
             tag e1 <> tag e2 ->
             compare_elements_unordered order e1 e2 logs path =
             mkLogs (differences logs ++ [DifferentTags path (tag e1) (tag e2)])
                    (matches logs)) as H.
  { intros e1 e2 logs path Ht. rewrite compare_elements_unordered_eq.
    destruct (str_eqb (tag e1) (tag e2)) eqn:E.
    - apply str_eqb_eq in E. contradiction.
    - reflexivity. }
  split; [exact H|]. split.
  - intros. rewrite !H by assumption. reflexivity.
  - reflexivity.
Qed.

(** ** The outcome line *)

(** C7: once both documents are loaded and the comparison has returned,
    the printed outcome is "identical" exactly when the differences log is
    empty and "different" otherwise; the matches log has no part in it. *)
Theorem outcome_classification (order : KeyOrder) (root1 root2 : Element) :
  let logs :=
    compare_elements_unordered order root1 root2 no_logs (py "/"%string) in
  let run := compare_xml_files order (Some root1) (Some root2) in
  (printed run = Identical <-> differences logs = [])
  /\ (printed run = Different <-> differences logs <> [])
  /\ printed run <> ParseFailed
  /\ (forall ds ms ms', printed (report (mkLogs ds ms)) =
                        printed (report (mkLogs ds ms'))).
Proof.
  cbv zeta. unfold compare_xml_files, report. simpl printed.
  destruct (differences _) as [|d ds]; simpl.
  - repeat split; try congruence; try discriminate.
  - repeat split; try congruence; try discriminate.
Qed.

(** ** The text of the two compared nodes *)

(** C9: the text of the two nodes a call is made on is never read: changing
    it on either side changes nothing, so two well-formed trees that differ
    only in the text of the root give no difference and are reported
    identical. *)
Theorem root_text_blindness (order : KeyOrder) (t : str) (a : Attrib)
    (x x' : option str) (cs : list Element) :
  faithful order ->
  well_formed (mkElement t a x cs) = true ->
  (forall e2 logs path,
      compare_elements_unordered order (mkElement t a x cs) e2 logs path =
      compare_elements_unordered order (mkElement t a x' cs) e2 logs path)
  /\ (forall e1 logs path,
         compare_elements_unordered order e1 (mkElement t a x cs) logs path =
         compare_elements_unordered order e1 (mkElement t a x' cs) logs path)
  /\ differences
       (compare_elements_unordered order (mkElement t a x cs)
          (mkElement t a x' cs) no_logs (py "/"%string)) = []
  /\ printed (compare_xml_files order (Some (mkElement t a x cs))
                (Some (mkElement t a x' cs))) = Identical.
Proof.
  intros Hf Hwf.
  assert (forall e1 logs path,
             compare_elements_unordered order e1 (mkElement t a x cs)
               logs path =
             compare_elements_unordered order e1 (mkElement t a x' cs)
               logs path)
    as H2 by (intros [t1 a1 x1 cs1] logs path; reflexivity).
  assert (differences
            (compare_elements_unordered order (mkElement t a x cs)
               (mkElement t a x' cs) no_logs (py "/"%string)) = []) as H3
    by (rewrite <- H2; now apply differences_self).
  repeat split; trivial.
  unfold compare_xml_files, report, printed. now rewrite H3.
Qed.

Lemma root_text_blindness_witness :
  differences
    (compare_elements_unordered first_seen
       (mkElement (py "r"%string) [] (Some (py "one"%string))
          [empty_element "c"])
       (mkElement (py "r"%string) [] (Some (py "two"%string))
          [empty_element "c"])
       no_logs (py "/"%string)) = [].
Proof.
  apply (@root_text_blindness first_seen (py "r"%string) []
           (Some (py "one"%string)) (Some (py "two"%string))
           [empty_element "c"]).
  - exact first_seen_faithful.
  - reflexivity.
Defined.

(** ** Trimming *)

Lemma isspace_iff (c : char) : isspace c = true <-> In c whitespace.
Proof.
  unfold isspace, whitespace.
  rewrite !orb_true_iff, !andb_true_iff, !N.leb_le, !N.eqb_eq.
  simpl In. lia.
Qed.

Lemma isspace_all (s : str) :
  Forall (fun c => In c whitespace) s -> forallb isspace s = true.
Proof.
  intros H. apply forallb_forall. rewrite Forall_forall in H.
  intros c Hc. now apply isspace_iff, H.
Qed.

Lemma isspace_not (c : char) : ~ In c whitespace -> isspace c = false.
Proof.
  intros H. destruct (isspace c) eqn:E; trivial.
  apply isspace_iff in E. contradiction.
Qed.

Lemma lstrip_split (s : str) :
  exists pre, s = pre ++ lstrip s /\ forallb isspace pre = true.
Proof.
  induction s as [|c s [pre [E H]]]; simpl.
  - now exists [].
  - destruct (isspace c) eqn:Ec.
    + exists (c :: pre). simpl. rewrite Ec, H. split; [congruence | trivial].
    + now exists [].
Qed.

Lemma lstrip_head (s : str) c r : lstrip s = c :: r -> isspace c = false.
Proof.
  induction s as [|d s IH]; simpl; [discriminate|].
  destruct (isspace d) eqn:Ed; trivial. intros H. congruence.
Qed.

Lemma lstrip_fixed (s : str) :
  (forall c r, s = c :: r -> isspace c = false) -> lstrip s = s.
Proof.
  destruct s as [|c r]; simpl; trivial. intros H.
  now rewrite (H c r eq_refl).
Qed.

Lemma lstrip_snoc (s : str) c :
  isspace c = false -> lstrip (s ++ [c]) = lstrip s ++ [c].
Proof.
  intros Hc. induction s as [|d s IH]; simpl.
  - now rewrite Hc.
  - now destruct (isspace d).
Qed.

Lemma lstrip_spaces (s : str) : forallb isspace s = true -> lstrip s = [].
Proof.
  induction s as [|c s IH]; simpl; trivial.
  destruct (isspace c); simpl; [exact IH | discriminate].
Qed.

Lemma rstrip_cons (s : str) c :
  isspace c = false -> rstrip (c :: s) = c :: rstrip s.
Proof.
  intros Hc. unfold rstrip. simpl.
  rewrite lstrip_snoc by trivial. rewrite rev_app_distr. reflexivity.
Qed.

Lemma lstrip_skip (pre s : str) :
  forallb isspace pre = true -> lstrip (pre ++ s) = lstrip s.
Proof.
  induction pre as [|c pre IH]; simpl; trivial.
  destruct (isspace c); simpl; [exact IH | discriminate].
Qed.

(** A string made of whitespace, a core that neither starts nor ends with
    whitespace, and whitespace, strips to the core. *)
Lemma strip_unique (s pre core post : str) :
  s = pre ++ core ++ post ->
  forallb isspace pre = true -> forallb isspace post = true ->
  (forall c r, core = c :: r -> isspace c = false) ->
  (forall c r, core = r ++ [c] -> isspace c = false) ->
  strip s = core.
Proof.
  intros -> Hpre Hpost Hhead Hlast. unfold strip.
  rewrite lstrip_skip by trivial.
  destruct core as [|c r].
  - simpl. now rewrite lstrip_spaces.
  - simpl lstrip. rewrite (Hhead c r eq_refl).
    unfold rstrip. change (c :: r ++ post) with ((c :: r) ++ post).
    rewrite rev_app_distr, lstrip_skip
      by (rewrite forallb_forall in *; intros d Hd; apply Hpost;
          now apply in_rev).
    destruct (rev (c :: r)) as [|d rr] eqn:E.
    + apply (f_equal (@rev char)) in E. rewrite rev_involutive in E.
      discriminate.
    + apply (f_equal (@rev char)) in E. rewrite rev_involutive in E.
      simpl in E. simpl lstrip. rewrite (Hlast d (rev rr) E).
      simpl. now rewrite E.
Qed.

(** ** Signatures *)

(** C6, for nodes whose attribute names are not repeated: the signature is
    the triple of the tag, the items of the attributes sorted by name and
    value, and the text without the whitespace at its two ends (the empty
    string for an absent text).  Two such nodes with the same tag, the same
    value for every attribute name, in whatever order the attributes were
    written, and texts that are the same between their surrounding
    whitespace, have the same signature. *)
Theorem signature_determinism (e1 e2 : Element) :
  let ws :=
    [9; 10; 11; 12; 13; 28; 29; 30; 31; 32; 133; 160; 5760;
     8192; 8193; 8194; 8195; 8196; 8197; 8198; 8199; 8200; 8201; 8202;
     8232; 8233; 8239; 8287; 12288]%N in
  let text_of (e : Element) : str :=
    match text e with Some s => s | None => [] end in
  let trims (s core : str) : Prop :=
    exists pre post,
      s = pre ++ core ++ post
      /\ Forall (fun c => In c ws) pre /\ Forall (fun c => In c ws) post
      /\ (forall c r, core = c :: r -> ~ In c ws)
      /\ (forall c r, core = r ++ [c] -> ~ In c ws) in
  NoDup (map fst (attrib e1)) -> NoDup (map fst (attrib e2)) ->
  tag e1 = tag e2 ->
  (forall name, dict_get (attrib e1) name = dict_get (attrib e2) name) ->
  (exists core, trims (text_of e1) core /\ trims (text_of e2) core) ->
  element_signature e1 = element_signature e2
  /\ exists items core,
      element_signature e1 = (tag e1, items, core)
      /\ StronglySorted item_le items
      /\ Permutation (attrib e1) items
      /\ trims (text_of e1) core.
Proof.
  cbv zeta. fold whitespace. intros H1 H2 Ht Ha [core [T1 T2]].
  assert (forall s c,
             (exists pre post,
                 s = pre ++ c ++ post
                 /\ Forall (fun x => In x whitespace) pre
                 /\ Forall (fun x => In x whitespace) post
                 /\ (forall x r, c = x :: r -> ~ In x whitespace)
                 /\ (forall x r, c = r ++ [x] -> ~ In x whitespace)) ->
             strip s = c) as Hu.
  { intros s c [pre [post [E [Hp [Hq [Hh Hl]]]]]].
    apply (strip_unique pre post E); try now apply isspace_all.
    - intros x r Hx. apply isspace_not. eapply Hh; eauto.
    - intros x r Hx. apply isspace_not. eapply Hl; eauto. }
  assert (forall e, text_or_empty (text e) =
                    match text e with Some s => s | None => [] end) as Hte
      by (intros e; now destruct (text e)).
  split.
  - unfold element_signature. rewrite Ht, !Hte.
    rewrite (Hu _ _ T1), (Hu _ _ T2).
    now rewrite (sorted_of_perm (@same_mapping_perm _ _ H1 H2 Ha)).
  - exists (sorted (attrib e1)), core. split; [|split; [|split]]; trivial.
    + unfold element_signature. now rewrite Hte, (Hu _ _ T1).
    + apply sorted_ordered.
    + apply sorted_perm.
Qed.

Lemma signature_determinism_witness :
  element_signature
    (mkElement (py "a"%string)
       [(py "x"%string, py "1"%string); (py "id"%string, py "7"%string)]
       (Some (py " hello "%string)) []) =
  element_signature
    (mkElement (py "a"%string)
       [(py "id"%string, py "7"%string); (py "x"%string, py "1"%string)]
       (Some (py "hello"%string)) [empty_element "c"]).
Proof.
  apply (@signature_determinism
           (mkElement (py "a"%string)
              [(py "x"%string, py "1"%string); (py "id"%string, py "7"%string)]
              (Some (py " hello "%string)) [])
           (mkElement (py "a"%string)
              [(py "id"%string, py "7"%string); (py "x"%string, py "1"%string)]
              (Some (py "hello"%string)) [empty_element "c"])).
  - apply unique_keys_NoDup. reflexivity.
  - apply unique_keys_NoDup. reflexivity.
  - reflexivity.
  - intros name. simpl.
    destruct (str_eqb (py "x"%string) name) eqn:E1,
             (str_eqb (py "id"%string) name) eqn:E2; trivial.
    apply str_eqb_eq in E1, E2. subst name. discriminate.
  - exists (py "hello"%string). split.
    + exists (py " "%string), (py " "%string).
      split; [reflexivity|].
      split; [repeat constructor; simpl; tauto|].
      split; [repeat constructor; simpl; tauto|].
      split.
      * intros c r E. inversion E; subst. simpl. lia.
      * intros c r E. apply (f_equal (@rev char)) in E.
        rewrite rev_app_distr in E. inversion E; subst. simpl. lia.
    + exists [], []. split; [reflexivity|].
      split; [constructor|]. split; [constructor|]. split.
      * intros c r E. inversion E; subst. simpl. lia.
      * intros c r E. apply (f_equal (@rev char)) in E.
        rewrite rev_app_distr in E. inversion E; subst. simpl. lia.
Defined.

(** C6 as stated does not hold when an attribute name is repeated.  The
    two nodes have the same tag, give every attribute name the same value
    (the attribute test of the comparator finds them equal) and have the
    same text, but their signatures differ: the first holds the item
    twice. *)
Lemma repeated_attribute_signatures_differ :
  tag node_xx = tag node_x
  /\ (forall name,
         dict_get (attrib node_xx) name = dict_get (attrib node_x) name)
  /\ dict_eqb (attrib node_xx) (attrib node_x) = true
  /\ text node_xx = text node_x
  /\ element_signature node_xx <> element_signature node_x.
Proof.
  split; [reflexivity|]. split.
  - intros name. simpl. now destruct (str_eqb (py "x"%string) name).
  - split; [reflexivity|]. split; [reflexivity|]. discriminate.
Qed.

(** ** The loop over the union of the keys *)

Lemma keys_by_signatures (cs : list Element) :
  keys (group_by element_signature cs) =
  keys (group_by (fun k : Signature => k) (map element_signature cs)).
Proof.
  rewrite (group_by_map element_signature element_signature
             (fun k : Signature => k)) by reflexivity.
  now rewrite keys_map_groups.
Qed.

Lemma keys_occurrences (e : Element) key :
  In key (keys (group_by element_signature (children e))) <->
  0 < occurrences key e.
Proof.
  rewrite keys_group_by. unfold occurrences.
  rewrite (count_occ_In sig_eq_dec). reflexivity.
Qed.

Lemma contains_occurrences (e : Element) key :
  contains (group_by element_signature (children e)) key =
  negb (occurrences key e =? 0).
Proof.
  destruct (contains _ key) eqn:E.
  - apply contains_keys, keys_occurrences in E.
    symmetry. apply negb_true_iff, Nat.eqb_neq. lia.
  - destruct (occurrences key e =? 0) eqn:F; trivial.
    apply Nat.eqb_neq in F.
    assert (0 < occurrences key e) as H by lia.
    apply keys_occurrences, contains_keys in H. congruence.
Qed.

Lemma group_length_occurrences (e : Element) key :
  length (group_get (group_by element_signature (children e)) key) =
  occurrences key e.
Proof. rewrite group_get_group_by. apply with_key_length. Qed.

(** The record one key gives, from the two numbers of occurrences. *)
Lemma reconcile_key_occurrences (e1 e2 : Element) at_ key :
  reconcile_key (group_by element_signature (children e1))
    (group_by element_signature (children e2)) at_ no_logs key =
  let n1 := occurrences key e1 in
  let n2 := occurrences key e2 in
  if n2 =? 0 then mkLogs [MissingInSecond at_ key] []
  else if n1 =? 0 then mkLogs [MissingInFirst at_ key] []
  else if n1 =? n2 then mkLogs [] [MatchingElement key at_ n1]
  else mkLogs [DifferentCount key at_ n1 n2] [].
Proof.
  unfold reconcile_key.
  rewrite !contains_occurrences, !group_length_occurrences, !negb_involutive.
  cbv zeta.
  destruct (occurrences key e2 =? 0); trivial.
  destruct (occurrences key e1 =? 0); trivial.
  destruct (occurrences key e1 =? occurrences key e2); trivial.
Qed.

Lemma filter_all (A : Type) (p : A -> bool) (b : bool) (l : list A) :
  (forall x, In x l -> p x = b) -> filter p l = if b then l else [].
Proof.
  induction l as [|x l IH]; intros H; simpl.
  - now destruct b.
  - rewrite (H x) by now left.
    rewrite IH by (intros; apply H; now right). now destruct b.
Qed.

Lemma filter_flat_map_key (X : Type) (p : X -> bool)
    (g : Signature -> list X) (l : list Signature) (key : Signature) :
  NoDup l ->
  (forall k x, In x (g k) -> p x = sig_eqb k key) ->
  filter p (flat_map g l) = if in_dec sig_eq_dec key l then g key else [].
Proof.
  intros Hd Hg. induction Hd as [|k l Hn Hd IH]; simpl; trivial.
  rewrite filter_app, IH.
  rewrite (@filter_all _ p (sig_eqb k key)) by (intros; now apply Hg).
  destruct (sig_eqb k key) eqn:E.
  - apply sig_eqb_eq in E. subst k.
    destruct (sig_eq_dec key key); [|congruence].
    destruct (in_dec sig_eq_dec key l); [contradiction|].
    apply app_nil_r.
  - apply sig_eqb_neq in E.
    destruct (sig_eq_dec k key); [contradiction|].
    destruct (in_dec sig_eq_dec key l); trivial.
Qed.

Lemma reconcile_key_about (e1 e2 : Element) at_ k key r :
  In r (differences
          (reconcile_key (group_by element_signature (children e1))
             (group_by element_signature (children e2)) at_ no_logs k)
        ++ matches
          (reconcile_key (group_by element_signature (children e1))
             (group_by element_signature (children e2)) at_ no_logs k)) ->
  about key r = sig_eqb k key.
Proof.
  rewrite reconcile_key_occurrences. cbv zeta.
  repeat match goal with
         | |- context [if ?c then _ else _] => destruct c
         end; simpl; intros [<-|[]]; reflexivity.
Qed.

Lemma reconcile_about (order : KeyOrder) (e1 e2 : Element) path key :
  faithful order ->
  let out := reconcile order e1 e2 path no_logs in
  let one :=
    reconcile_key (group_by element_signature (children e1))
      (group_by element_signature (children e2))
      (child_path path (tag e1)) no_logs key in
  (0 < occurrences key e1 \/ 0 < occurrences key e2 ->
   filter (about key) (differences out) = differences one
   /\ filter (about key) (matches out) = matches one)
  /\ (occurrences key e1 = 0 -> occurrences key e2 = 0 ->
      filter (about key) (differences out) = []
      /\ filter (about key) (matches out) = []).
Proof.
  intros Hf. cbv zeta. rewrite reconcile_emitted.
  rewrite differences_concat_logs, matches_concat_logs,
    !flat_map_concat_map, !map_map, <- !flat_map_concat_map.
  destruct (Hf (keys (group_by element_signature (children e1)))
               (keys (group_by element_signature (children e2))))
    as [[Hd Hu] _].
  rewrite !(@filter_flat_map_key _ (about key) _ _ key); trivial;
    try (intros k r Hin; eapply reconcile_key_about; apply in_or_app; eauto).
  destruct (in_dec sig_eq_dec key _) as [Hin|Hin];
    rewrite Hu, !keys_occurrences in Hin; split; auto; try tauto; lia.
Qed.

Lemma reconcile_by_signatures (order : KeyOrder) (e1 e2 e1' e2' : Element)
    path logs :
  tag e1 = tag e1' ->
  map element_signature (children e1) = map element_signature (children e1') ->
  map element_signature (children e2) = map element_signature (children e2') ->
  reconcile order e1 e2 path logs = reconcile order e1' e2' path logs.
Proof.
  intros Ht H1 H2. unfold reconcile. cbv zeta.
  rewrite !keys_by_signatures, H1, H2, Ht.
  apply fold_left_ext_in. intros a k _. unfold reconcile_key.
  rewrite !contains_occurrences, !group_length_occurrences.
  unfold occurrences. now rewrite H1, H2.
Qed.

(** C2: when the tags are equal, the loop over the union of the keys runs
    after the attribute step and, for each signature found among the
    children of either node, appends one record: "Missing element in second
    file" when only the first node has it, "Missing element in first file"
    when only the second has it, "Different count" with the two counts when
    both have it in different numbers, and a "Matching element" record with
    the count otherwise.  The records depend on the signatures of the
    direct children only. *)
Theorem set_level_reconciliation (order : KeyOrder) (e1 e2 : Element)
    (logs : Logs) (path : str) :
  faithful order -> tag e1 = tag e2 ->
  let at_ := child_path path (tag e1) in
  let out := reconcile order e1 e2 path no_logs in
  compare_elements_unordered order e1 e2 logs path =
    fold_left
      (fun logs pair =>
         compare_elements_unordered order (fst pair) (snd pair) logs at_)
      (recursion_pairs order e1 e2)
      (app_logs
         (attribute_step e1 e2 path
            (add_match logs (MatchingTags path (tag e1))))
         out)
  /\ (forall key,
        let n1 := occurrences key e1 in
        let n2 := occurrences key e2 in
        let ds := filter (about key) (differences out) in
        let ms := filter (about key) (matches out) in
        (0 < n1 -> n2 = 0 -> ds = [MissingInSecond at_ key] /\ ms = [])
        /\ (n1 = 0 -> 0 < n2 -> ds = [MissingInFirst at_ key] /\ ms = [])
        /\ (0 < n1 -> 0 < n2 -> n1 <> n2 ->
            ds = [DifferentCount key at_ n1 n2] /\ ms = [])
        /\ (0 < n1 -> 0 < n2 -> n1 = n2 ->
            ds = [] /\ ms = [MatchingElement key at_ n1])
        /\ (n1 = 0 -> n2 = 0 -> ds = [] /\ ms = []))
  /\ (forall e1' e2',
        tag e1' = tag e1 ->
        map element_signature (children e1') =
          map element_signature (children e1) ->
        map element_signature (children e2') =
          map element_signature (children e2) ->
        reconcile order e1' e2' path no_logs = out).
Proof.
  intros Hf Ht. cbv zeta. split; [|split].
  - rewrite compare_elements_unordered_steps.
    rewrite Ht, str_eqb_refl. simpl negb. cbv iota.
    rewrite <- reconcile_app. now rewrite app_logs_nil_r.
  - intros key.
    destruct (@reconcile_about order e1 e2 path key Hf) as [Hsome Hnone].
    rewrite reconcile_key_occurrences in Hsome. cbv zeta in Hsome.
    repeat split; intros;
      try (now apply Hnone);
      try (specialize (Hsome ltac:(lia)); destruct Hsome as [Hd Hm];
           rewrite ?Hd, ?Hm);
      repeat match goal with
             | |- context [?a =? ?b] =>
                 let E := fresh in
                 destruct (a =? b) eqn:E;
                 [apply Nat.eqb_eq in E | apply Nat.eqb_neq in E]
             end; simpl; trivial; try lia; try (now apply Hnone).
  - intros e1' e2' Ht' H1 H2. now apply reconcile_by_signatures.
Qed.

Lemma set_level_reconciliation_witness :
  filter (about (element_signature (empty_element "c")))
    (differences (reconcile first_seen doc_cd doc_cce (py "/"%string) no_logs))
  = [DifferentCount (element_signature (empty_element "c"))
       (py "//p"%string) 1 2]
  /\ filter (about (element_signature (empty_element "d")))
       (differences
          (reconcile first_seen doc_cd doc_cce (py "/"%string) no_logs))
     = [MissingInSecond (py "//p"%string)
          (element_signature (empty_element "d"))].
Proof.
  destruct (@set_level_reconciliation first_seen doc_cd doc_cce no_logs
              (py "/"%string) first_seen_faithful eq_refl) as [_ [H _]].
  split.
  - destruct (H (element_signature (empty_element "c")))
      as [_ [_ [H3 _]]].
    apply H3; vm_compute; lia.
  - destruct (H (element_signature (empty_element "d")))
      as [H1 _].
    apply H1; vm_compute; lia.
Defined.

(** ** The recursive calls *)

Lemma nth_error_combine (A B : Type) (l1 : list A) (l2 : list B) i x y :
  nth_error (combine l1 l2) i = Some (x, y) <->
  nth_error l1 i = Some x /\ nth_error l2 i = Some y.
Proof.
  revert l2 i. induction l1 as [|a l1 IH]; intros [|b l2] [|i]; simpl;
    try (split; [discriminate | intros [? ?]; discriminate]).
  - split; [intros H; inversion H; auto | intros [H1 H2]; congruence].
  - apply IH.
Qed.

Lemma recursion_pairs_by_key (order : KeyOrder) (e1 e2 : Element) key :
  faithful order ->
  let zipped :=
    combine (with_key element_signature key (children e1))
            (with_key element_signature key (children e2)) in
  filter (fun pair => sig_eqb (element_signature (fst pair)) key)
    (recursion_pairs order e1 e2) = zipped
  /\ filter (fun pair => sig_eqb (element_signature (snd pair)) key)
       (recursion_pairs order e1 e2) = zipped.
Proof.
  intros Hf. cbv zeta. unfold recursion_pairs. cbv zeta.
  destruct (Hf (keys (group_by element_signature (children e1)))
               (keys (group_by element_signature (children e2))))
    as [_ [Hd Hi]].
  assert (forall k c1 c2,
             In (c1, c2)
               (combine
                  (group_get (group_by element_signature (children e1)) k)
                  (group_get (group_by element_signature (children e2)) k)) ->
             element_signature c1 = k /\ element_signature c2 = k) as Hk.
  { intros k c1 c2 H. rewrite !group_get_group_by in H.
    pose proof (in_combine_l _ _ _ _ H) as H1.
    pose proof (in_combine_r _ _ _ _ H) as H2.
    apply with_key_In in H1, H2. tauto. }
  rewrite !(@filter_flat_map_key _ _ _ _ key); trivial.
  - destruct (in_dec sig_eq_dec key _) as [Hin|Hin].
    + now rewrite !group_get_group_by.
    + rewrite Hi, !keys_group_by in Hin.
      destruct (in_dec sig_eq_dec key
                  (map element_signature (children e1))) as [H1|H1].
      * rewrite (@with_key_nil _ element_signature (children e2)) by tauto.
        now rewrite combine_nil.
      * now rewrite (@with_key_nil _ element_signature (children e1)).
  - intros k [c1 c2] H. apply Hk in H. simpl. now destruct H as [_ ->].
  - intros k [c1 c2] H. apply Hk in H. simpl. now destruct H as [-> _].
Qed.

(** C3: when the tags are equal, the recursive calls are made, with the
    path extended by "/" (code point 47) and the tag of the current
    element, on the pairs that zip
    the children of the first node having a signature with the children of
    the second node having it, in sibling order: as many pairs for a
    signature as the smaller of its two numbers of occurrences, so none for
    the occurrences in excess on one side and none for a signature found on
    one side only. *)
Theorem recursive_descent (order : KeyOrder) (e1 e2 : Element)
    (logs : Logs) (path : str) :
  faithful order -> tag e1 = tag e2 ->
  compare_elements_unordered order e1 e2 logs path =
    fold_left
      (fun logs pair =>
         compare_elements_unordered order (fst pair) (snd pair) logs
           (path ++ [47%N] ++ tag e1))
      (recursion_pairs order e1 e2)
      (reconcile order e1 e2 path
         (attribute_step e1 e2 path
            (add_match logs (MatchingTags path (tag e1)))))
  /\ forall key,
      let group1 := with_key element_signature key (children e1) in
      let group2 := with_key element_signature key (children e2) in
      filter (fun pair => sig_eqb (element_signature (fst pair)) key)
        (recursion_pairs order e1 e2) = combine group1 group2
      /\ filter (fun pair => sig_eqb (element_signature (snd pair)) key)
           (recursion_pairs order e1 e2) = combine group1 group2
      /\ length group1 = occurrences key e1
      /\ length group2 = occurrences key e2
      /\ length (combine group1 group2) =
         Nat.min (occurrences key e1) (occurrences key e2)
      /\ (forall i c1 c2,
             nth_error (combine group1 group2) i = Some (c1, c2) <->
             nth_error group1 i = Some c1 /\ nth_error group2 i = Some c2).
Proof.
  intros Hf Ht. split.
  - change (path ++ [47%N] ++ tag e1) with (child_path path (tag e1)).
    rewrite compare_elements_unordered_steps.
    now rewrite Ht, str_eqb_refl.
  - intros key. cbv zeta.
    destruct (@recursion_pairs_by_key order e1 e2 key Hf) as [H1 H2].
    split; [exact H1|]. split; [exact H2|].
    split; [apply with_key_length|]. split; [apply with_key_length|].
    split.
    + rewrite length_combine, !with_key_length. reflexivity.
    + intros i c1 c2. apply nth_error_combine.
Qed.

Lemma recursive_descent_witness :
  compare_elements_unordered first_seen doc_cd doc_cce no_logs
    (py "/"%string) =
  fold_left
    (fun logs pair =>
       compare_elements_unordered first_seen (fst pair) (snd pair) logs
         (py "//p"%string))
    [(empty_element "c", empty_element "c")]
    (reconcile first_seen doc_cd doc_cce (py "/"%string)
       (attribute_step doc_cd doc_cce (py "/"%string)
          (add_match no_logs
             (MatchingTags (py "/"%string) (py "p"%string))))).
Proof.
  exact (proj1 (@recursive_descent first_seen doc_cd doc_cce no_logs
                  (py "/"%string) first_seen_faithful eq_refl)).
Defined.

(** ** Exchanging the two arguments *)

Lemma differences_emitted (order : KeyOrder) (e1 e2 : Element) path :
  differences (compare_elements_unordered order e1 e2 no_logs path) =
  if negb (str_eqb (tag e1) (tag e2)) then
    [DifferentTags path (tag e1) (tag e2)]
  else
    differences (attribute_step e1 e2 path no_logs)
    ++ flat_map
         (fun k =>
            differences
              (reconcile_key (group_by element_signature (children e1))
                 (group_by element_signature (children e2))
                 (child_path path (tag e1)) no_logs k))
         (union_order order
            (keys (group_by element_signature (children e1)))
            (keys (group_by element_signature (children e2))))
    ++ flat_map
         (fun pair =>
            differences
              (compare_elements_unordered order (fst pair) (snd pair)
                 no_logs (child_path path (tag e1))))
         (recursion_pairs order e1 e2).
Proof.
  rewrite compare_elements_unordered_emitted.
  destruct (negb (str_eqb (tag e1) (tag e2))); trivial.
  unfold app_logs. simpl differences.
  rewrite reconcile_emitted, !differences_concat_logs, !flat_map_concat_map,
    !map_map, <- !flat_map_concat_map, <- app_assoc.
  f_equal. unfold attribute_step.
  now destruct (negb (dict_eqb (attrib e1) (attrib e2))).
Qed.

Lemma map_flat_map (A B C : Type) (f : B -> C) (g : A -> list B)
    (l : list A) :
  map f (flat_map g l) = flat_map (fun x => map f (g x)) l.
Proof.
  induction l as [|x l IH]; simpl; trivial. now rewrite map_app, IH.
Qed.

Lemma flat_map_map (A B C : Type) (f : A -> B) (g : B -> list C)
    (l : list A) :
  flat_map g (map f l) = flat_map (fun x => g (f x)) l.
Proof.
  induction l as [|x l IH]; simpl; trivial. now rewrite IH.
Qed.

Lemma flat_map_perm_in (A B : Type) (f g : A -> list B) (l : list A) :
  (forall x, In x l -> Permutation (f x) (g x)) ->
  Permutation (flat_map f l) (flat_map g l).
Proof.
  induction l as [|x l IH]; intros H; simpl; trivial.
  apply Permutation_app; [apply H; now left|].
  apply IH. intros; apply H; now right.
Qed.

Lemma combine_swap (A B : Type) (l1 : list A) (l2 : list B) :
  combine l2 l1 = map (@swap_pair A B) (combine l1 l2).
Proof.
  revert l2. induction l1 as [|x l1 IH]; intros [|y l2]; simpl; trivial.
  now rewrite IH.
Qed.

Lemma union_order_swap (o o' : KeyOrder) keys1 keys2 :
  faithful o -> faithful o' ->
  Permutation (union_order o' keys2 keys1) (union_order o keys1 keys2).
Proof.
  intros Hf Hf'.
  destruct (Hf keys1 keys2) as [[Hd Hu] _].
  destruct (Hf' keys2 keys1) as [[Hd' Hu'] _].
  apply NoDup_Permutation; trivial.
  intros k. rewrite Hu, Hu'. tauto.
Qed.

Lemma intersection_order_swap (o o' : KeyOrder) keys1 keys2 :
  faithful o -> faithful o' ->
  Permutation (intersection_order o' keys2 keys1)
              (intersection_order o keys1 keys2).
Proof.
  intros Hf Hf'.
  destruct (Hf keys1 keys2) as [_ [Hd Hu]].
  destruct (Hf' keys2 keys1) as [_ [Hd' Hu']].
  apply NoDup_Permutation; trivial.
  intros k. rewrite Hu, Hu'. tauto.
Qed.

Lemma recursion_pairs_swap (o o' : KeyOrder) (e1 e2 : Element) :
  faithful o -> faithful o' ->
  Permutation (recursion_pairs o' e2 e1)
              (map (@swap_pair _ _) (recursion_pairs o e1 e2)).
Proof.
  intros Hf Hf'. unfold recursion_pairs. cbv zeta.
  rewrite map_flat_map.
  rewrite (intersection_order_swap _ _ Hf Hf').
  apply flat_map_perm_in. intros k _. now rewrite combine_swap.
Qed.

Lemma reconcile_key_swap (e1 e2 : Element) at_ key :
  0 < occurrences key e1 \/ 0 < occurrences key e2 ->
  differences
    (reconcile_key (group_by element_signature (children e2))
       (group_by element_signature (children e1)) at_ no_logs key) =
  map swap_sides
    (differences
       (reconcile_key (group_by element_signature (children e1))
          (group_by element_signature (children e2)) at_ no_logs key)).
Proof.
  intros H. rewrite !reconcile_key_occurrences. cbv zeta.
  rewrite (Nat.eqb_sym (occurrences key e2) (occurrences key e1)).
  destruct (occurrences key e1 =? 0) eqn:E1,
           (occurrences key e2 =? 0) eqn:E2;
    rewrite ?Nat.eqb_eq in *; try lia; trivial.
  now destruct (occurrences key e1 =? occurrences key e2).
Qed.

Lemma differences_swap (o o' : KeyOrder) :
  faithful o -> faithful o' ->
  forall e1 e2 path,
    well_formed e1 = true -> well_formed e2 = true ->
    Permutation
      (differences (compare_elements_unordered o' e2 e1 no_logs path))
      (map swap_sides
         (differences (compare_elements_unordered o e1 e2 no_logs path))).
Proof.
  intros Hf Hf'. induction e1 as [t a x cs IH] using Element_induction.
  intros e2 path Hwf1 Hwf2. rewrite !differences_emitted.
  rewrite (str_eqb_sym (tag e2)).
  destruct (str_eqb (tag (mkElement t a x cs)) (tag e2)) eqn:Et; simpl negb;
    cbv iota; [|reflexivity].
  apply str_eqb_eq in Et. rewrite <- Et.
  rewrite !map_app, !map_flat_map.
  repeat apply Permutation_app.
  - unfold attribute_step.
    rewrite (@dict_eqb_sym (attrib e2) (attrib (mkElement t a x cs)))
      by now apply well_formed_attrib.
    rewrite <- Et.
    destruct (dict_eqb (attrib (mkElement t a x cs)) (attrib e2)); reflexivity.
  - rewrite (union_order_swap _ _ Hf Hf').
    apply flat_map_perm_in. intros k Hin.
    destruct (Hf (keys (group_by element_signature
                          (children (mkElement t a x cs))))
                 (keys (group_by element_signature (children e2))))
      as [[_ Hu] _].
    apply Hu in Hin. rewrite !keys_occurrences in Hin.
    now rewrite reconcile_key_swap.
  - rewrite (recursion_pairs_swap _ _ Hf Hf'), flat_map_map.
    apply flat_map_perm_in. intros [c1 c2] Hin. simpl.
    apply recursion_pairs_In in Hin. destruct Hin as [H1 [H2 _]].
    rewrite Forall_forall in IH. apply IH.
    + exact H1.
    + exact (well_formed_child _ _ Hwf1 H1).
    + exact (well_formed_child _ _ Hwf2 H2).
Qed.

(** C10: exchanging the two arguments exchanges the sides in the
    difference records: what the run on (B, A) appends to the differences
    is, up to the order of the records, what the run on (A, B) appends with
    "missing in second file" and "missing in first file" exchanged and the
    two counts of a count mismatch swapped.  So both runs append the same
    number of differences, and one appends none exactly when the other
    does. *)
Theorem symmetry_under_swap (o o' : KeyOrder) (A B : Element) (path : str) :
  faithful o -> faithful o' ->
  well_formed A = true -> well_formed B = true ->
  let dAB := differences (compare_elements_unordered o A B no_logs path) in
  let dBA := differences (compare_elements_unordered o' B A no_logs path) in
  Permutation dBA (map swap_sides dAB)
  /\ length dBA = length dAB
  /\ (dAB = [] <-> dBA = [])
  /\ (forall at_ key,
         (In (MissingInSecond at_ key) dAB <-> In (MissingInFirst at_ key) dBA)
         /\ (In (MissingInFirst at_ key) dAB <->
             In (MissingInSecond at_ key) dBA))
  /\ (forall key at_ n1 n2,
         In (DifferentCount key at_ n1 n2) dAB <->
         In (DifferentCount key at_ n2 n1) dBA).
Proof.
  intros Hf Hf' HA HB. cbv zeta.
  pose proof (@differences_swap o o' Hf Hf' A B path HA HB) as HP.
  set (dAB := differences (compare_elements_unordered o A B no_logs path))
    in *.
  set (dBA := differences (compare_elements_unordered o' B A no_logs path))
    in *.
  assert (forall r, In r dBA <-> In (swap_sides r) dAB) as Hin.
  { intros r. split; intros H.
    - apply (Permutation_in _ HP) in H. apply in_map_iff in H.
      destruct H as [r' [<- H]]. now destruct r'.
    - apply (Permutation_in _ (Permutation_sym HP)).
      apply in_map_iff. exists (swap_sides r). split; trivial.
      now destruct r. }
  split; [exact HP|]. split; [|split; [|split]].
  - rewrite (Permutation_length HP). apply length_map.
  - apply Permutation_length in HP. rewrite length_map in HP.
    split; intros E; rewrite E in HP; simpl in HP.
    + now apply length_zero_iff_nil.
    + symmetry in HP. now apply length_zero_iff_nil in HP.
  - intros at_ key. rewrite !Hin. simpl. tauto.
  - intros key at_ n1 n2. rewrite Hin. simpl. tauto.
Qed.

Lemma symmetry_under_swap_witness :
  length
    (differences
       (compare_elements_unordered first_seen doc_cce doc_cd no_logs
          (py "/"%string))) =
  length
    (differences
       (compare_elements_unordered first_seen doc_cd doc_cce no_logs
          (py "/"%string))).
Proof.
  exact (proj1 (proj2 (@symmetry_under_swap first_seen first_seen doc_cd
                         doc_cce (py "/"%string) first_seen_faithful
                         first_seen_faithful eq_refl eq_refl))).
Defined.

(** ** Count mismatch *)

Lemma enumerates_one (l : list Signature) (k : Signature) :
  NoDup l -> (forall x, In x l <-> x = k) -> l = [k].
Proof.
  intros Hd H. destruct l as [|a [|b l]].
  - exfalso. now apply (H k).
  - f_equal. apply H. now left.
  - exfalso. inversion Hd as [|? ? Hn _]; subst. apply Hn.
    assert (a = k) as -> by (apply H; now left).
    assert (b = k) as -> by (apply H; right; now left).
    now left.
Qed.

Lemma enumerates_none (l : list Signature) :
  (forall x, In x l <-> False) -> l = [].
Proof.
  intros H. destruct l as [|a l]; trivial. exfalso. apply (H a). now left.
Qed.

Lemma orders_on_one (order : KeyOrder) (k : Signature) :
  faithful order ->
  union_order order [k] [k] = [k] /\ intersection_order order [k] [k] = [k].
Proof.
  intros Hf. destruct (Hf [k] [k]) as [[Hd Hu] [Hd' Hi]].
  split; apply enumerates_one; trivial; intros x;
    rewrite ?Hu, ?Hi; simpl; intuition.
Qed.

Lemma orders_on_none (order : KeyOrder) :
  faithful order ->
  union_order order [] [] = [] /\ intersection_order order [] [] = [].
Proof.
  intros Hf. destruct (Hf [] []) as [[_ Hu] [_ Hi]].
  split; apply enumerates_none; intros x; rewrite ?Hu, ?Hi; simpl; tauto.
Qed.

Lemma compare_childless (order : KeyOrder) t a x x' logs path :
  faithful order -> NoDup (dict_keys a) ->
  compare_elements_unordered order (mkElement t a x []) (mkElement t a x' [])
    logs path =
  add_match (add_match logs (MatchingTags path t))
            (MatchingAttributes (child_path path t) a).
Proof.
  intros Hf Ha. rewrite compare_elements_unordered_eq. simpl.
  rewrite str_eqb_refl, dict_eqb_refl by trivial. simpl.
  destruct (orders_on_none Hf) as [-> ->]. reflexivity.
Qed.

(** C8, as the code has it: a parent with children [<c/>, <c/>] against
    the same parent with the one child [<c/>] gives one difference, a
    "Different count" citing 2 and 1; the first [<c/>] of each side is
    paired and compared, which adds its two match records, and the second
    [<c/>] of the first parent is left out of the recursion. *)
Theorem count_mismatch_pairs_first (order : KeyOrder) (t : str) (a : Attrib)
    (x : option str) (path : str) :
  faithful order -> NoDup (dict_keys a) ->
  let c := empty_element "c" in
  let p2 := mkElement t a x [c; c] in
  let p1 := mkElement t a x [c] in
  let at_ := child_path path t in
  compare_elements_unordered order p2 p1 no_logs path =
    mkLogs [DifferentCount (element_signature c) at_ 2 1]
           [MatchingTags path t; MatchingAttributes at_ a;
            MatchingTags at_ (py "c"%string);
            MatchingAttributes (child_path at_ (py "c"%string)) []]
  /\ recursion_pairs order p2 p1 = [(c, c)].
Proof.
  intros Hf Ha. cbv zeta.
  assert (recursion_pairs order
            (mkElement t a x [empty_element "c"; empty_element "c"])
            (mkElement t a x [empty_element "c"]) =
          [(empty_element "c", empty_element "c")]) as Hp.
  { unfold recursion_pairs. cbv zeta.
    change (keys (group_by element_signature
                    (children (mkElement t a x
                                 [empty_element "c"; empty_element "c"]))))
      with [element_signature (empty_element "c")].
    change (keys (group_by element_signature
                    (children (mkElement t a x [empty_element "c"]))))
      with [element_signature (empty_element "c")].
    destruct (orders_on_one (element_signature (empty_element "c")) Hf)
      as [_ ->].
    reflexivity. }
  split; [|exact Hp].
  rewrite compare_elements_unordered_steps, Hp.
  simpl tag. rewrite str_eqb_refl. simpl negb. cbv iota.
  unfold reconcile, attribute_step. cbv zeta. simpl attrib.
  rewrite dict_eqb_refl by trivial. simpl negb. cbv iota.
  change (keys (group_by element_signature
                  (children (mkElement t a x
                               [empty_element "c"; empty_element "c"]))))
    with [element_signature (empty_element "c")].
  change (keys (group_by element_signature
                  (children (mkElement t a x [empty_element "c"]))))
    with [element_signature (empty_element "c")].
  destruct (orders_on_one (element_signature (empty_element "c")) Hf)
    as [-> _].
  cbn [fold_left fst snd].
  change (empty_element "c") with (mkElement (py "c"%string) [] None []) at 1 2.
  rewrite compare_childless by (trivial; constructor).
  reflexivity.
Qed.

Lemma count_mismatch_pairs_first_witness :
  recursion_pairs first_seen doc_cc doc_c =
  [(empty_element "c", empty_element "c")].
Proof.
  apply (@count_mismatch_pairs_first first_seen (py "p"%string) [] None
           (py "/"%string)).
  - exact first_seen_faithful.
  - constructor.
Defined.

(** C8 as stated does not hold: on [<p><c/><c/></p>] against [<p><c/></p>]
    the count difference is reported, and the comparison does recurse into
    [<c/>]. *)
Lemma count_mismatch_no_recursion_fails :
  ~ (In (DifferentCount (element_signature (empty_element "c"))
           (py "//p"%string) 2 1)
        (differences
           (compare_elements_unordered first_seen doc_cc doc_c no_logs
              (py "/"%string)))
     /\ recursion_pairs first_seen doc_cc doc_c = []).
Proof. intros [_ H]. vm_compute in H. discriminate. Qed.

(** ** Permuted siblings *)

Lemma In_differences_reconcile (order : KeyOrder) e1 e2 path r :
  tag e1 = tag e2 ->
  In r (differences (reconcile order e1 e2 path no_logs)) ->
  In r (differences (compare_elements_unordered order e1 e2 no_logs path)).
Proof.
  intros Ht H. rewrite compare_elements_unordered_emitted.
  rewrite Ht, str_eqb_refl. simpl negb. cbv iota.
  unfold app_logs. simpl differences. rewrite !in_app_iff. tauto.
Qed.

Lemma In_differences_child (order : KeyOrder) e1 e2 c1 c2 path r :
  tag e1 = tag e2 ->
  In (c1, c2) (recursion_pairs order e1 e2) ->
  In r (differences
          (compare_elements_unordered order c1 c2 no_logs
             (child_path path (tag e1)))) ->
  In r (differences (compare_elements_unordered order e1 e2 no_logs path)).
Proof.
  intros Ht Hp H. rewrite differences_emitted.
  rewrite Ht, str_eqb_refl. simpl negb. cbv iota.
  rewrite !in_app_iff. right. right. apply in_flat_map.
  exists (c1, c2). rewrite <- Ht. now split.
Qed.

Lemma In_recursion_pairs (order : KeyOrder) e1 e2 c1 c2 :
  faithful order ->
  In (c1, c2)
     (combine (with_key element_signature (element_signature c1) (children e1))
              (with_key element_signature (element_signature c1) (children e2)))
  -> In (c1, c2) (recursion_pairs order e1 e2).
Proof.
  intros Hf H.
  destruct (@recursion_pairs_by_key order e1 e2 (element_signature c1) Hf)
    as [H1 _].
  rewrite <- H1 in H. now apply filter_In in H.
Qed.

Lemma In_missing_in_second (order : KeyOrder) e1 e2 path key :
  faithful order ->
  0 < occurrences key e1 -> occurrences key e2 = 0 ->
  In (MissingInSecond (child_path path (tag e1)) key)
     (differences (reconcile order e1 e2 path no_logs)).
Proof.
  intros Hf H1 H2.
  destruct (@reconcile_about order e1 e2 path key Hf) as [Hsome _].
  destruct Hsome as [Hd _]; [now left|].
  rewrite reconcile_key_occurrences in Hd. cbv zeta in Hd.
  rewrite H2 in Hd. simpl in Hd.
  assert (In (MissingInSecond (child_path path (tag e1)) key)
            (filter (about key)
               (differences (reconcile order e1 e2 path no_logs)))) as H
      by (rewrite Hd; now left).
  now apply filter_In in H.
Qed.

(** C1 (order-insensitivity) fails on this pair.  [doc_yx] is [doc_xy]
    with the two children of the root exchanged; both children have the
    signature of [<c>], so the first child of one root is compared with the
    first child of the other: the child [<x/>] is reported missing and the
    documents are reported different. *)
Theorem permuted_siblings_differ (order : KeyOrder) :
  faithful order ->
  Permutation (children doc_xy) (children doc_yx)
  /\ tag doc_xy = tag doc_yx /\ attrib doc_xy = attrib doc_yx
  /\ text doc_xy = text doc_yx
  /\ In (MissingInSecond (py "//r/c"%string)
           (element_signature (empty_element "x")))
        (differences
           (compare_elements_unordered order doc_xy doc_yx no_logs
              (py "/"%string)))
  /\ printed (compare_xml_files order (Some doc_xy) (Some doc_yx))
     = Different.
Proof.
  intros Hf.
  assert (In (MissingInSecond (py "//r/c"%string)
                (element_signature (empty_element "x")))
             (differences
                (compare_elements_unordered order doc_xy doc_yx no_logs
                   (py "/"%string)))) as Hin.
  { apply (@In_differences_child order doc_xy doc_yx
             (parent_of "c" [empty_element "x"])
             (parent_of "c" [empty_element "y"])); trivial.
    - apply In_recursion_pairs; trivial. vm_compute. now left.
    - apply In_differences_reconcile; trivial.
      apply (@In_missing_in_second order
               (parent_of "c" [empty_element "x"])
               (parent_of "c" [empty_element "y"])
               (child_path (py "/"%string) (tag doc_xy))); trivial.
      vm_compute. lia. }
  split; [apply perm_swap|]. repeat split; trivial.
  unfold compare_xml_files, report, printed.
  destruct (differences _); [destruct Hin | reflexivity].
Qed.

Lemma permuted_siblings_differ_witness :
  printed (compare_xml_files first_seen (Some doc_xy) (Some doc_yx))
  = Different.
Proof.
  exact (proj2 (proj2 (proj2 (proj2 (proj2
           (@permuted_siblings_differ first_seen first_seen_faithful)))))).
Defined.

(** The two logs of that run, with the keys visited in first-seen order. *)
Example permuted_siblings_logs :
  compare_elements_unordered first_seen doc_xy doc_yx no_logs (py "/"%string)
  = let c := py "//r/c"%string in
    let r := py "//r"%string in
    let x := element_signature (empty_element "x") in
    let y := element_signature (empty_element "y") in
    mkLogs
      [MissingInSecond c x; MissingInFirst c y;
       MissingInSecond c y; MissingInFirst c x]
      [MatchingTags (py "/"%string) (py "r"%string); MatchingAttributes r [];
       MatchingElement (element_signature (parent_of "c" [])) r 2;
       MatchingTags r (py "c"%string); MatchingAttributes c [];
       MatchingTags r (py "c"%string); MatchingAttributes c []].
Proof. vm_compute. reflexivity. Qed.

(** Where the order of the siblings does not matter: when the children of
    the second root are those of the first in another order that keeps,
    for every signature, the children having it in the same order, no
    difference is reported. *)
Lemma permuted_siblings_same_groups (order : KeyOrder) t a x cs cs' :
  faithful order ->
  well_formed (mkElement t a x cs) = true ->
  (forall key, with_key element_signature key cs' =
               with_key element_signature key cs) ->
  differences
    (compare_elements_unordered order (mkElement t a x cs)
       (mkElement t a x cs') no_logs (py "/"%string)) = [].
Proof.
  intros Hf Hwf Hg.
  pose proof (well_formed_inv _ _ _ _ Hwf) as [Ha Hcs].
  assert (forall key, occurrences key (mkElement t a x cs') =
                      occurrences key (mkElement t a x cs)) as Hocc.
  { intros key. unfold occurrences. simpl.
    now rewrite <- !with_key_length, Hg. }
  rewrite differences_emitted. simpl tag. rewrite str_eqb_refl.
  simpl negb. cbv iota. unfold attribute_step. simpl attrib.
  rewrite dict_eqb_refl by trivial. simpl.
  rewrite !flat_map_nil; trivial.
  - intros [c1 c2] Hin. simpl.
    assert (c1 = c2 /\ In c1 cs) as [<- Hc].
    { unfold recursion_pairs in Hin. cbv zeta in Hin.
      apply in_flat_map in Hin. destruct Hin as [k [_ Hin]].
      rewrite !group_get_group_by in Hin. simpl in Hin. rewrite Hg in Hin.
      split; [now apply in_combine_same in Hin|].
      apply in_combine_l in Hin. now apply with_key_In in Hin. }
    apply differences_self; auto.
  - intros k Hin.
    destruct (Hf (keys (group_by element_signature cs))
                 (keys (group_by element_signature cs'))) as [[_ Hu] _].
    apply Hu in Hin.
    change cs with (children (mkElement t a x cs)) in Hin at 1.
    change cs' with (children (mkElement t a x cs')) in Hin.
    rewrite !keys_occurrences, Hocc in Hin.
    change cs with (children (mkElement t a x cs)) at 1.
    change cs' with (children (mkElement t a x cs')).
    rewrite reconcile_key_occurrences. cbv zeta. rewrite Hocc.
    destruct (occurrences k (mkElement t a x cs) =? 0) eqn:E.
    + apply Nat.eqb_eq in E. lia.
    + now rewrite Nat.eqb_refl.
Qed.

(** * Further properties of the code *)

(** ** The logs are append-only *)

(** X1: a call keeps every entry the two logs already hold, in place, and
    what it appends does not depend on them. *)
Theorem logs_append_only (order : KeyOrder) (e1 e2 : Element) (logs : Logs)
    (path : str) :
  let fresh := compare_elements_unordered order e1 e2 no_logs path in
  let out := compare_elements_unordered order e1 e2 logs path in
  differences out = differences logs ++ differences fresh
  /\ matches out = matches logs ++ matches fresh.
Proof.
  cbv zeta. rewrite (compare_elements_unordered_from order e1 e2 logs path).
  split; reflexivity.
Qed.

(** ** The iteration order of the key sets *)

Lemma matches_emitted (order : KeyOrder) (e1 e2 : Element) path :
  matches (compare_elements_unordered order e1 e2 no_logs path) =
  if negb (str_eqb (tag e1) (tag e2)) then []
  else
    (MatchingTags path (tag e1)
       :: matches (attribute_step e1 e2 path no_logs))
    ++ flat_map
         (fun k =>
            matches
              (reconcile_key (group_by element_signature (children e1))
                 (group_by element_signature (children e2))
                 (child_path path (tag e1)) no_logs k))
         (union_order order
            (keys (group_by element_signature (children e1)))
            (keys (group_by element_signature (children e2))))
    ++ flat_map
         (fun pair =>
            matches
              (compare_elements_unordered order (fst pair) (snd pair)
                 no_logs (child_path path (tag e1))))
         (recursion_pairs order e1 e2).
Proof.
  rewrite compare_elements_unordered_emitted.
  destruct (negb (str_eqb (tag e1) (tag e2))); trivial.
  unfold app_logs. simpl matches.
  rewrite reconcile_emitted, !matches_concat_logs, !flat_map_concat_map,
    !map_map, <- !flat_map_concat_map, <- app_assoc.
  f_equal. unfold attribute_step.
  now destruct (negb (dict_eqb (attrib e1) (attrib e2))).
Qed.

Lemma union_order_any (o o' : KeyOrder) keys1 keys2 :
  faithful o -> faithful o' ->
  Permutation (union_order o' keys1 keys2) (union_order o keys1 keys2).
Proof.
  intros Hf Hf'.
  destruct (Hf keys1 keys2) as [[Hd Hu] _].
  destruct (Hf' keys1 keys2) as [[Hd' Hu'] _].
  apply NoDup_Permutation; trivial.
  intros k. rewrite Hu, Hu'. tauto.
Qed.

Lemma intersection_order_any (o o' : KeyOrder) keys1 keys2 :
  faithful o -> faithful o' ->
  Permutation (intersection_order o' keys1 keys2)
              (intersection_order o keys1 keys2).
Proof.
  intros Hf Hf'.
  destruct (Hf keys1 keys2) as [_ [Hd Hu]].
  destruct (Hf' keys1 keys2) as [_ [Hd' Hu']].
  apply NoDup_Permutation; trivial.
  intros k. rewrite Hu, Hu'. tauto.
Qed.

Lemma recursion_pairs_any (o o' : KeyOrder) (e1 e2 : Element) :
  faithful o -> faithful o' ->
  Permutation (recursion_pairs o' e1 e2) (recursion_pairs o e1 e2).
Proof.
  intros Hf Hf'. unfold recursion_pairs. cbv zeta.
  now rewrite (intersection_order_any _ _ Hf Hf').
Qed.

Lemma logs_any_order (o o' : KeyOrder) :
  faithful o -> faithful o' ->
  forall e1 e2 path,
    Permutation
      (differences (compare_elements_unordered o' e1 e2 no_logs path))
      (differences (compare_elements_unordered o e1 e2 no_logs path))
    /\ Permutation
         (matches (compare_elements_unordered o' e1 e2 no_logs path))
         (matches (compare_elements_unordered o e1 e2 no_logs path)).
Proof.
  intros Hf Hf'. induction e1 as [t a x cs IH] using Element_induction.
  intros e2 path. rewrite !differences_emitted, !matches_emitted.
  destruct (negb (str_eqb (tag (mkElement t a x cs)) (tag e2)));
    [split; reflexivity|].
  rewrite Forall_forall in IH.
  split.
  - apply Permutation_app_head. apply Permutation_app.
    + now rewrite (union_order_any _ _ Hf Hf').
    + rewrite (recursion_pairs_any _ _ Hf Hf').
      apply flat_map_perm_in. intros [c1 c2] Hin. simpl.
      apply recursion_pairs_In in Hin. now apply IH.
  - apply Permutation_app_head. apply Permutation_app.
    + now rewrite (union_order_any _ _ Hf Hf').
    + rewrite (recursion_pairs_any _ _ Hf Hf').
      apply flat_map_perm_in. intros [c1 c2] Hin. simpl.
      apply recursion_pairs_In in Hin. now apply IH.
Qed.

(** X2: the order in which the two key sets are iterated changes the order
    of the records and nothing else: under any two orders both logs hold
    the same records the same number of times, and the printed outcome is
    the same. *)
Theorem outcome_independent_of_iteration_order (o o' : KeyOrder)
    (e1 e2 : Element) (path : str) :
  faithful o -> faithful o' ->
  Permutation
    (differences (compare_elements_unordered o' e1 e2 no_logs path))
    (differences (compare_elements_unordered o e1 e2 no_logs path))
  /\ Permutation
       (matches (compare_elements_unordered o' e1 e2 no_logs path))
       (matches (compare_elements_unordered o e1 e2 no_logs path))
  /\ printed (compare_xml_files o' (Some e1) (Some e2)) =
     printed (compare_xml_files o (Some e1) (Some e2)).
Proof.
  intros Hf Hf'.
  destruct (@logs_any_order o o' Hf Hf' e1 e2 path) as [Hd Hm].
  split; [exact Hd|]. split; [exact Hm|].
  destruct (@logs_any_order o o' Hf Hf' e1 e2 (py "/"%string)) as [Hr _].
  apply Permutation_length in Hr.
  unfold compare_xml_files, report, printed. revert Hr.
  destruct (differences
              (compare_elements_unordered o' e1 e2 no_logs (py "/"%string))),
    (differences
       (compare_elements_unordered o e1 e2 no_logs (py "/"%string)));
    simpl; intros H; try discriminate H; reflexivity.
Qed.

(** ** An empty differences log *)

Lemma dict_eqb_same_mapping (a b : Attrib) :
  NoDup (dict_keys a) -> NoDup (dict_keys b) ->
  (dict_eqb a b = true <-> same_mapping a b).
Proof. intros _ _. apply dict_eqb_iff. Qed.

Lemma map_combine_same_length (A B : Type) (l1 : list A) (l2 : list B) :
  length l1 = length l2 ->
  map fst (combine l1 l2) = l1 /\ map snd (combine l1 l2) = l2.
Proof.
  revert l2. induction l1 as [|x l1 IH]; intros [|y l2] H; simpl in *;
    try discriminate; auto.
  destruct (IH l2) as [-> ->]; auto.
Qed.

Lemma flat_map_app_perm (A B : Type) (f g : A -> list B) (l : list A) :
  Permutation (flat_map (fun k => f k ++ g k) l)
              (flat_map f l ++ flat_map g l).
Proof.
  induction l as [|k l IH]; simpl; trivial.
  rewrite IH, <- !app_assoc. apply Permutation_app_head.
  rewrite !app_assoc. apply Permutation_app_tail. apply Permutation_app_comm.
Qed.

Lemma flat_map_pick (A : Type) (l : list Signature) (k : Signature) (x : A) :
  NoDup l -> In k l ->
  flat_map (fun k' => if sig_eqb k k' then [x] else []) l = [x].
Proof.
  intros Hd. induction Hd as [|k' l Hn Hd IH]; simpl; [tauto|].
  intros [->|Hin].
  - rewrite sig_eqb_refl. simpl. f_equal.
    apply flat_map_nil. intros k' Hk'.
    destruct (sig_eqb k k') eqn:E; trivial.
    apply sig_eqb_eq in E. subst. contradiction.
  - destruct (sig_eqb k k') eqn:E.
    + apply sig_eqb_eq in E. subst. contradiction.
    + simpl. now apply IH.
Qed.

(** The groups of a list, taken over the keys of its members, hold every
    member once. *)
Lemma groups_partition (A : Type) (key_of : A -> Signature) (xs : list A)
    (l : list Signature) :
  NoDup l -> (forall x, In x xs -> In (key_of x) l) ->
  Permutation (flat_map (fun k => with_key key_of k xs) l) xs.
Proof.
  intros Hd. induction xs as [|x xs IH]; intros Hin.
  - simpl. rewrite flat_map_nil; trivial.
  - assert (forall k,
               with_key key_of k (x :: xs) =
               (if sig_eqb (key_of x) k then [x] else [])
               ++ with_key key_of k xs) as E
        by (intros k; simpl; now destruct (sig_eqb (key_of x) k)).
    rewrite (flat_map_ext _ _ E), flat_map_app_perm.
    rewrite flat_map_pick by (trivial; apply Hin; now left).
    simpl. constructor. apply IH. intros; apply Hin; now right.
Qed.

Lemma occurrences_equal_when_reconciled (order : KeyOrder) (e1 e2 : Element)
    path :
  faithful order ->
  differences (reconcile order e1 e2 path no_logs) = [] ->
  forall key, occurrences key e1 = occurrences key e2.
Proof.
  intros Hf H key.
  destruct (@reconcile_about order e1 e2 path key Hf) as [Hsome _].
  rewrite H in Hsome. simpl in Hsome.
  rewrite reconcile_key_occurrences in Hsome. cbv zeta in Hsome.
  destruct (Nat.eq_dec (occurrences key e1) 0) as [E1|E1],
           (Nat.eq_dec (occurrences key e2) 0) as [E2|E2]; try lia.
  - destruct Hsome as [Hd _]; [lia|].
    rewrite E1 in Hd. simpl in Hd.
    destruct (occurrences key e2 =? 0); discriminate.
  - destruct Hsome as [Hd _]; [lia|].
    rewrite E2 in Hd. discriminate.
  - destruct Hsome as [Hd _]; [lia|].
    destruct (occurrences key e2 =? 0) eqn:F2; [discriminate|].
    destruct (occurrences key e1 =? 0) eqn:F1; [discriminate|].
    destruct (occurrences key e1 =? occurrences key e2) eqn:F;
      [now apply Nat.eqb_eq in F | discriminate].
Qed.

(** With equal numbers of occurrences on both sides, the recursive calls
    take every child of either node once. *)
Lemma recursion_pairs_cover (order : KeyOrder) (e1 e2 : Element) :
  faithful order ->
  (forall key, occurrences key e1 = occurrences key e2) ->
  Permutation (map fst (recursion_pairs order e1 e2)) (children e1)
  /\ Permutation (map snd (recursion_pairs order e1 e2)) (children e2).
Proof.
  intros Hf Hocc. unfold recursion_pairs. cbv zeta.
  destruct (Hf (keys (group_by element_signature (children e1)))
               (keys (group_by element_signature (children e2))))
    as [_ [Hd Hi]].
  rewrite !map_flat_map.
  assert (forall k,
             length (with_key element_signature k (children e1)) =
             length (with_key element_signature k (children e2))) as Hl
      by (intros k; rewrite !with_key_length; apply Hocc).
  assert (forall c e, In c (children e) ->
                      0 < occurrences (element_signature c) e) as Hpos.
  { intros c e Hc. unfold occurrences. apply (count_occ_In sig_eq_dec).
    now apply in_map. }
  split.
  - rewrite (flat_map_ext _
               (fun k => with_key element_signature k (children e1))).
    + apply groups_partition; trivial. intros c Hc. apply Hi.
      rewrite !keys_occurrences, <- Hocc. split; now apply Hpos.
    + intros k. rewrite !group_get_group_by.
      now apply map_combine_same_length.
  - rewrite (flat_map_ext _
               (fun k => with_key element_signature k (children e2))).
    + apply groups_partition; trivial. intros c Hc. apply Hi.
      rewrite !keys_occurrences, Hocc. split; now apply Hpos.
    + intros k. rewrite !group_get_group_by.
      now apply map_combine_same_length.
Qed.

Lemma app_nil_inv3 (A : Type) (l1 l2 l3 : list A) :
  l1 ++ l2 ++ l3 = [] -> l1 = [] /\ l2 = [] /\ l3 = [].
Proof.
  intros H. apply app_eq_nil in H. destruct H as [-> H].
  apply app_eq_nil in H. tauto.
Qed.

Lemma flat_map_nil_inv (A B : Type) (f : A -> list B) (l : list A) :
  flat_map f l = [] -> forall x, In x l -> f x = [].
Proof.
  induction l as [|y l IH]; simpl; [tauto|].
  intros H x [->|Hx]; apply app_eq_nil in H; [tauto | now apply IH].
Qed.

Lemma similar_when_no_difference (order : KeyOrder) :
  faithful order ->
  forall e1 e2 path,
    well_formed e1 = true -> well_formed e2 = true ->
    differences (compare_elements_unordered order e1 e2 no_logs path) = [] ->
    similar e1 e2.
Proof.
  intros Hf. induction e1 as [t a x cs IH] using Element_induction.
  intros [t' a' x' cs'] path Hwf1 Hwf2 H.
  pose proof (well_formed_attrib _ Hwf1) as Ha. simpl in Ha.
  pose proof (well_formed_attrib _ Hwf2) as Ha'. simpl in Ha'.
  rewrite differences_emitted in H. simpl tag in H.
  destruct (str_eqb t t') eqn:Et; simpl negb in H; cbv iota in H;
    [|discriminate].
  apply str_eqb_eq in Et. subst t'.
  apply app_nil_inv3 in H. destruct H as [H1 [H2 H3]].
  assert (differences
            (reconcile order (mkElement t a x cs) (mkElement t a' x' cs')
               path no_logs) = []) as Hrec.
  { rewrite reconcile_emitted, differences_concat_logs,
      flat_map_concat_map, map_map, <- flat_map_concat_map. exact H2. }
  pose proof (occurrences_equal_when_reconciled _ _ _ Hf Hrec) as Hocc.
  destruct (recursion_pairs_cover _ _ Hf Hocc) as [P1 P2].
  apply similar_node
    with (pairs := recursion_pairs order (mkElement t a x cs)
                     (mkElement t a' x' cs')); trivial.
  - apply dict_eqb_same_mapping; trivial.
    unfold attribute_step in H1. simpl attrib in H1.
    destruct (dict_eqb a a'); [reflexivity | discriminate].
  - apply Forall_forall. intros [c1 c2] Hin.
    now apply recursion_pairs_In in Hin.
  - apply Forall_forall. intros [c1 c2] Hin. simpl.
    pose proof (flat_map_nil_inv _ _ H3 _ Hin) as Hd. simpl in Hd.
    apply recursion_pairs_In in Hin. destruct Hin as [Hc1 [Hc2 _]].
    rewrite Forall_forall in IH.
    apply (IH c1 Hc1 c2 (child_path path t)); trivial.
    + exact (well_formed_child _ _ Hwf1 Hc1).
    + exact (well_formed_child _ _ Hwf2 Hc2).
Qed.

(** X3: no false "identical": when the comparison of two well-formed trees
    leaves the differences log empty, the trees are the same up to the
    order of siblings, the order of attributes, the whitespace around text
    and the text of the two roots; so are two documents reported
    identical. *)
Theorem identical_means_similar (order : KeyOrder) (e1 e2 : Element) :
  faithful order -> well_formed e1 = true -> well_formed e2 = true ->
  (forall path,
      differences (compare_elements_unordered order e1 e2 no_logs path) = []
      -> similar e1 e2)
  /\ (printed (compare_xml_files order (Some e1) (Some e2)) = Identical ->
      similar e1 e2).
Proof.
  intros Hf H1 H2. split.
  - intros path. now apply similar_when_no_difference.
  - unfold compare_xml_files, report, printed. intros H.
    apply (@similar_when_no_difference order Hf e1 e2 (py "/"%string));
      trivial.
    destruct (differences _); [reflexivity | discriminate].
Qed.

(** ** Signatures decide pairing *)

Lemma perm_same_mapping (a b : Attrib) :
  NoDup (dict_keys a) -> NoDup (dict_keys b) ->
  Permutation a b -> same_mapping a b.
Proof.
  intros Ha Hb HP k.
  destruct (dict_get a k) as [v|] eqn:E1, (dict_get b k) as [w|] eqn:E2;
    trivial.
  - apply dict_get_In in E1; trivial.
    apply (Permutation_in _ HP), (dict_get_In _ _ _ Hb) in E1. congruence.
  - apply dict_get_In in E1; trivial.
    apply (Permutation_in _ HP), (dict_get_In _ _ _ Hb) in E1. congruence.
  - apply dict_get_In in E2; trivial.
    apply (Permutation_in _ (Permutation_sym HP)), (dict_get_In _ _ _ Ha)
      in E2.
    congruence.
Qed.

Lemma sorted_same_mapping (a b : Attrib) :
  NoDup (dict_keys a) -> NoDup (dict_keys b) ->
  sorted a = sorted b -> same_mapping a b.
Proof.
  intros Ha Hb H. apply perm_same_mapping; trivial.
  rewrite (sorted_perm a), H. symmetry. apply sorted_perm.
Qed.



(** ** Differences below the root *)

Lemma reconcile_key_structural (e1 e2 : Element) at_ k r :
  In r (differences
          (reconcile_key (group_by element_signature (children e1))
             (group_by element_signature (children e2)) at_ no_logs k)) ->
  structural r = true /\ location r = at_.
Proof.
  rewrite reconcile_key_occurrences. cbv zeta.
  repeat match goal with
         | |- context [if ?c then _ else _] => destruct c
         end; simpl;
    first [intros [<-|[]]; split; reflexivity | intros []].
Qed.

Lemma paired_children_structural (order : KeyOrder) :
  forall e1 e2 path,
    well_formed e1 = true -> well_formed e2 = true ->
    element_signature e1 = element_signature e2 ->
    forall r,
      In r (differences
              (compare_elements_unordered order e1 e2 no_logs path)) ->
      structural r = true.
Proof.
  induction e1 as [t a x cs IH] using Element_induction.
  intros e2 path Hwf1 Hwf2 Hsig r Hr.
  pose proof (well_formed_attrib _ Hwf1) as Ha.
  pose proof (well_formed_attrib _ Hwf2) as Ha'.
  assert (tag (mkElement t a x cs) = tag e2) as Ht
      by (unfold element_signature in Hsig; congruence).
  assert (sorted (attrib (mkElement t a x cs)) = sorted (attrib e2)) as Hso
      by (unfold element_signature in Hsig; congruence).
  pose proof (@sorted_same_mapping _ _ Ha Ha' Hso) as Hm.
  rewrite differences_emitted in Hr.
  rewrite Ht, str_eqb_refl in Hr. simpl negb in Hr. cbv iota in Hr.
  rewrite !in_app_iff in Hr. destruct Hr as [Hr|[Hr|Hr]].
  - unfold attribute_step in Hr.
    rewrite (proj2 (@dict_eqb_same_mapping _ _ Ha Ha') Hm) in Hr. destruct Hr.
  - apply in_flat_map in Hr. destruct Hr as [k [_ Hr]].
    now apply reconcile_key_structural in Hr.
  - apply in_flat_map in Hr. destruct Hr as [[c1 c2] [Hp Hr]]. simpl in Hr.
    apply recursion_pairs_In in Hp. destruct Hp as [Hc1 [Hc2 Hs]].
    rewrite Forall_forall in IH.
    apply (IH c1 Hc1 c2 _ (well_formed_child _ _ Hwf1 Hc1)
             (well_formed_child _ _ Hwf2 Hc2) Hs r Hr).
Qed.

(** X5: a tag or an attribute difference is only ever reported for the two
    nodes of the outermost call.  The children that get compared have equal
    signatures, hence equal tags and attributes, so every other difference
    is a missing element or a count mismatch. *)
Theorem differences_below_root (order : KeyOrder) (e1 e2 : Element)
    (path : str) (r : LogEntry) :
  well_formed e1 = true -> well_formed e2 = true ->
  In r (differences (compare_elements_unordered order e1 e2 no_logs path)) ->
  r = DifferentTags path (tag e1) (tag e2)
  \/ r = DifferentAttributes (child_path path (tag e1)) (attrib e1)
           (attrib e2)
  \/ structural r = true.
Proof.
  intros Hwf1 Hwf2 Hr. rewrite differences_emitted in Hr. revert Hr.
  destruct (negb (str_eqb (tag e1) (tag e2))); intros Hr.
  - destruct Hr as [<-|[]]. now left.
  - rewrite !in_app_iff in Hr. destruct Hr as [Hr|[Hr|Hr]].
    + unfold attribute_step in Hr. revert Hr.
      destruct (negb (dict_eqb (attrib e1) (attrib e2))); simpl; intros Hr.
      * destruct Hr as [<-|[]]. right. now left.
      * destruct Hr.
    + apply in_flat_map in Hr. destruct Hr as [k [_ Hr]].
      right. right. now apply reconcile_key_structural in Hr.
    + apply in_flat_map in Hr. destruct Hr as [[c1 c2] [Hp Hr]].
      simpl in Hr. apply recursion_pairs_In in Hp.
      destruct Hp as [Hc1 [Hc2 Hs]]. right. right.
      apply (@paired_children_structural order c1 c2 _
               (well_formed_child _ _ Hwf1 Hc1)
               (well_formed_child _ _ Hwf2 Hc2) Hs r Hr).
Qed.

Lemma differences_below_root_witness :
  DifferentCount (element_signature (empty_element "c")) (py "//p"%string)
    2 1 =
  DifferentTags (py "/"%string) (tag doc_cc) (tag doc_c)
  \/ DifferentCount (element_signature (empty_element "c"))
       (py "//p"%string) 2 1 =
     DifferentAttributes (child_path (py "/"%string) (tag doc_cc))
       (attrib doc_cc) (attrib doc_c)
  \/ structural
       (DifferentCount (element_signature (empty_element "c"))
          (py "//p"%string) 2 1) = true.
Proof.
  apply (@differences_below_root first_seen doc_cc doc_c (py "/"%string)).
  - reflexivity.
  - reflexivity.
  - vm_compute. now left.
Defined.

(** X6: with equal tags, an attribute difference is reported exactly when
    the two nodes do not map the same names to the same values; the order
    in which the attributes were written plays no part, and the children
    are compared either way. *)
Theorem attribute_difference_iff (order : KeyOrder) (e1 e2 : Element)
    (path : str) :
  well_formed e1 = true -> well_formed e2 = true -> tag e1 = tag e2 ->
  let out := compare_elements_unordered order e1 e2 no_logs path in
  let at_ := child_path path (tag e1) in
  (In (DifferentAttributes at_ (attrib e1) (attrib e2)) (differences out)
   <-> ~ same_mapping (attrib e1) (attrib e2))
  /\ (forall r, In r (differences (reconcile order e1 e2 path no_logs)) ->
                In r (differences out)).
Proof.
  intros Hwf1 Hwf2 Ht. cbv zeta.
  pose proof (well_formed_attrib _ Hwf1) as Ha.
  pose proof (well_formed_attrib _ Hwf2) as Ha'.
  pose proof (@dict_eqb_same_mapping _ _ Ha Ha') as Hm.
  split.
  - split.
    + intros Hr Hsame. apply Hm in Hsame.
      rewrite differences_emitted in Hr.
      rewrite Ht, str_eqb_refl in Hr. simpl negb in Hr. cbv iota in Hr.
      rewrite !in_app_iff in Hr. destruct Hr as [Hr|[Hr|Hr]].
      * unfold attribute_step in Hr. rewrite Hsame in Hr. destruct Hr.
      * apply in_flat_map in Hr. destruct Hr as [k [_ Hr]].
        apply reconcile_key_structural in Hr. destruct Hr. discriminate.
      * apply in_flat_map in Hr. destruct Hr as [[c1 c2] [Hp Hr]].
        simpl in Hr. apply recursion_pairs_In in Hp.
        destruct Hp as [Hc1 [Hc2 Hs]].
        pose proof (@paired_children_structural order c1 c2 _
                      (well_formed_child _ _ Hwf1 Hc1)
                      (well_formed_child _ _ Hwf2 Hc2) Hs _ Hr) as Hk.
        discriminate.
    + intros Hn. rewrite differences_emitted.
      rewrite Ht, str_eqb_refl. simpl negb. cbv iota.
      apply in_or_app. left. unfold attribute_step. rewrite <- Ht.
      destruct (dict_eqb (attrib e1) (attrib e2)) eqn:E.
      * exfalso. apply Hn. now apply Hm.
      * now left.
  - intros r Hr. now apply In_differences_reconcile.
Qed.

Lemma attribute_difference_iff_witness :
  ~ In (DifferentAttributes (py "//a"%string)
          [(py "x"%string, py "1"%string); (py "y"%string, py "2"%string)]
          [(py "y"%string, py "2"%string); (py "x"%string, py "1"%string)])
       (differences
          (compare_elements_unordered first_seen
             (mkElement (py "a"%string)
                [(py "x"%string, py "1"%string);
                 (py "y"%string, py "2"%string)] None [])
             (mkElement (py "a"%string)
                [(py "y"%string, py "2"%string);
                 (py "x"%string, py "1"%string)] None [])
             no_logs (py "/"%string))).
Proof.
  intros H.
  apply (proj1 (proj1 (@attribute_difference_iff first_seen
                         (mkElement (py "a"%string)
                            [(py "x"%string, py "1"%string);
                             (py "y"%string, py "2"%string)] None [])
                         (mkElement (py "a"%string)
                            [(py "y"%string, py "2"%string);
                             (py "x"%string, py "1"%string)] None [])
                         (py "/"%string) eq_refl eq_refl eq_refl))) in H.
  apply H. apply dict_eqb_same_mapping.
  - apply unique_keys_NoDup. reflexivity.
  - apply unique_keys_NoDup. reflexivity.
  - reflexivity.
Defined.

(** ** Sibling groups *)

Lemma keys_append_NoDup (A : Type) (key_of : A -> Signature) (x : A)
    (g : Groups A) :
  NoDup (keys g) -> NoDup (keys (group_append (key_of x) x g)).
Proof.
  induction g as [|[k l] r IH]; simpl; intros Hd.
  - repeat constructor. tauto.
  - inversion Hd as [|? ? Hn Hd']; subst.
    destruct (sig_eqb k (key_of x)) eqn:E; simpl.
    + now constructor.
    + constructor; [|now apply IH].
      fold (keys (group_append (key_of x) x r)).
      rewrite keys_append. intros [H|H]; [contradiction|].
      subst k. rewrite sig_eqb_refl in E. discriminate.
Qed.

Lemma keys_group_by_NoDup (A : Type) (key_of : A -> Signature)
    (xs : list A) :
  NoDup (keys (group_by key_of xs)).
Proof.
  unfold group_by.
  assert (NoDup (keys (@nil (Signature * list A)))) as H by constructor.
  revert H. generalize (@nil (Signature * list A)) as g.
  induction xs as [|x xs IH]; intros g Hg; simpl; trivial.
  apply IH. now apply keys_append_NoDup.
Qed.

(** X7: grouping the children by signature loses and repeats nothing: the
    keys are distinct, the group of a key holds the children with that
    signature in sibling order and is empty for any other key only, and all
    groups together hold every child once. *)
Theorem sibling_groups_partition (cs : list Element) :
  let groups := group_by element_signature cs in
  NoDup (keys groups)
  /\ (forall key,
         In key (keys groups) <->
         exists c, In c cs /\ element_signature c = key)
  /\ (forall key,
         group_get groups key = with_key element_signature key cs)
  /\ (forall key, group_get groups key = [] <-> contains groups key = false)
  /\ Permutation (flat_map (group_get groups) (keys groups)) cs.
Proof.
  cbv zeta. split; [apply keys_group_by_NoDup|].
  assert (forall key,
             In key (keys (group_by element_signature cs)) <->
             exists c, In c cs /\ element_signature c = key) as Hk.
  { intros key. rewrite keys_group_by, in_map_iff.
    split; intros [c H]; exists c; tauto. }
  split; [exact Hk|]. split; [apply group_get_group_by|]. split.
  - intros key. rewrite group_get_group_by. split.
    + intros H. destruct (contains _ key) eqn:E; trivial.
      apply contains_keys, Hk in E. destruct E as [c [Hc Hs]].
      assert (In c (with_key element_signature key cs)) as Hin
          by now apply with_key_In.
      rewrite H in Hin. destruct Hin.
    + intros H. apply with_key_nil. intros Hin.
      apply keys_group_by, contains_keys in Hin. congruence.
  - rewrite (flat_map_ext _ (fun k => with_key element_signature k cs))
      by (intros; apply group_get_group_by).
    apply groups_partition; [apply keys_group_by_NoDup|].
    intros c Hc. apply Hk. now exists c.
Qed.

(** ** Trimming *)

(** X8: [strip] cuts a run of whitespace off each end and nothing else:
    the string is whitespace, the result, whitespace; the result neither
    starts nor ends with whitespace, so stripping again changes nothing,
    and a string of whitespace only, like an absent text, gives the empty
    string. *)
Theorem strip_spec (s : str) :
  (exists pre post,
      s = pre ++ strip s ++ post
      /\ forallb isspace pre = true /\ forallb isspace post = true)
  /\ (forall c r, strip s = c :: r -> isspace c = false)
  /\ (forall c r, strip s = r ++ [c] -> isspace c = false)
  /\ strip (strip s) = strip s
  /\ (forallb isspace s = true -> strip s = []).
Proof.
  assert (forall c r, strip s = r ++ [c] -> isspace c = false) as Hlast.
  { intros c r H. unfold strip, rstrip in H.
    apply (f_equal (@rev char)) in H.
    rewrite rev_involutive, rev_app_distr in H. simpl in H.
    now apply lstrip_head in H. }
  assert (forall c r, strip s = c :: r -> isspace c = false) as Hhead.
  { intros c r. unfold strip.
    destruct (lstrip s) as [|d t] eqn:E; [discriminate|].
    pose proof (lstrip_head _ E) as Hd.
    rewrite rstrip_cons by trivial. congruence. }
  split; [|split; [exact Hhead | split; [exact Hlast | split]]].
  - destruct (lstrip_split s) as [pre [E1 H1]].
    destruct (lstrip_split (rev (lstrip s))) as [post [E2 H2]].
    exists pre, (rev post). split; [|split; trivial].
    + unfold strip, rstrip. rewrite <- rev_app_distr, <- E2, rev_involutive.
      exact E1.
    + rewrite forallb_forall in *. intros c Hc. apply H2.
      now apply in_rev.
  - unfold strip at 1. rewrite (lstrip_fixed Hhead).
    unfold strip, rstrip. rewrite rev_involutive.
    f_equal. apply lstrip_fixed. intros c r H.
    now apply lstrip_head in H.
  - intros H. unfold strip. now rewrite (lstrip_spaces _ H).
Qed.

(** ** Children with no signature in common *)

Lemma flat_map_singletons (A B : Type) (f : A -> list B) (g : A -> B)
    (l : list A) :
  (forall x, In x l -> f x = [g x]) -> flat_map f l = map g l.
Proof.
  induction l as [|x l IH]; intros H; simpl; trivial.
  rewrite H by now left. simpl. f_equal. apply IH. intros; apply H; now right.
Qed.

Lemma occurrences_zero (key : Signature) (e : Element) :
  ~ In key (map element_signature (children e)) -> occurrences key e = 0.
Proof.
  intros H. unfold occurrences. now apply count_occ_not_In.
Qed.

Lemma occurrences_pos (key : Signature) (e : Element) :
  In key (map element_signature (children e)) -> 0 < occurrences key e.
Proof.
  intros H. unfold occurrences. now apply (count_occ_In sig_eq_dec).
Qed.

(** X9: when no child of the first node has the signature of a child of
    the second (two leaves that differ in their text only, or one node
    without children), each distinct signature of the first node is
    reported once as missing in the second file and each of the second
    once as missing in the first; nothing is matched by the loop and no
    child is compared with any other. *)
Theorem disjoint_children_all_missing (order : KeyOrder) (e1 e2 : Element)
    (logs : Logs) (path : str) :
  faithful order -> tag e1 = tag e2 ->
  (forall c1 c2, In c1 (children e1) -> In c2 (children e2) ->
                 element_signature c1 <> element_signature c2) ->
  let at_ := child_path path (tag e1) in
  let out := reconcile order e1 e2 path no_logs in
  Permutation (differences out)
    (map (MissingInSecond at_)
       (nodup sig_eq_dec (map element_signature (children e1)))
     ++ map (MissingInFirst at_)
          (nodup sig_eq_dec (map element_signature (children e2))))
  /\ matches out = []
  /\ recursion_pairs order e1 e2 = []
  /\ compare_elements_unordered order e1 e2 logs path =
     app_logs
       (attribute_step e1 e2 path
          (add_match logs (MatchingTags path (tag e1))))
       out.
Proof.
  intros Hf Ht Hdis. cbv zeta.
  set (s1 := map element_signature (children e1)).
  set (s2 := map element_signature (children e2)).
  assert (forall k, In k s1 -> ~ In k s2) as Hd.
  { intros k H1 H2. unfold s1, s2 in *. apply in_map_iff in H1, H2.
    destruct H1 as [c1 [E1 H1]], H2 as [c2 [E2 H2]].
    apply (Hdis c1 c2 H1 H2). congruence. }
  destruct (Hf (keys (group_by element_signature (children e1)))
               (keys (group_by element_signature (children e2))))
    as [[HdU HU] [HdI HI]].
  assert (Permutation
            (union_order order
               (keys (group_by element_signature (children e1)))
               (keys (group_by element_signature (children e2))))
            (nodup sig_eq_dec s1 ++ nodup sig_eq_dec s2)) as HP.
  { apply NoDup_Permutation; trivial.
    - apply NoDup_app; try apply NoDup_nodup.
      intros k. rewrite !nodup_In. apply Hd.
    - intros k. rewrite HU, in_app_iff, !nodup_In, !keys_group_by.
      reflexivity. }
  assert (recursion_pairs order e1 e2 = []) as Hpairs.
  { unfold recursion_pairs. cbv zeta.
    rewrite (@enumerates_none (intersection_order order _ _)); trivial.
    intros k. rewrite HI, !keys_group_by. split; [|tauto].
    intros [H1 H2]. exact (Hd k H1 H2). }
  split; [|split; [|split]]; trivial.
  - rewrite reconcile_emitted, differences_concat_logs,
      flat_map_concat_map, map_map, <- flat_map_concat_map.
    rewrite HP, flat_map_app. apply Permutation_app.
    + rewrite (@flat_map_singletons _ _ _
                 (MissingInSecond (child_path path (tag e1)))); trivial.
      intros k Hk. apply nodup_In in Hk.
      rewrite reconcile_key_occurrences. cbv zeta.
      now rewrite (occurrences_zero _ e2 (Hd k Hk)).
    + rewrite (@flat_map_singletons _ _ _
                 (MissingInFirst (child_path path (tag e1)))); trivial.
      intros k Hk. apply nodup_In in Hk.
      rewrite reconcile_key_occurrences. cbv zeta.
      rewrite (occurrences_zero k e1) by (intros H; exact (Hd k H Hk)).
      pose proof (occurrences_pos _ _ Hk) as Hpos.
      destruct (occurrences k e2 =? 0) eqn:E; trivial.
      apply Nat.eqb_eq in E. lia.
  - rewrite reconcile_emitted, matches_concat_logs,
      flat_map_concat_map, map_map, <- flat_map_concat_map.
    apply flat_map_nil. intros k Hk. apply HU in Hk.
    rewrite !keys_group_by in Hk. rewrite reconcile_key_occurrences.
    cbv zeta. destruct Hk as [Hk|Hk].
    + now rewrite (occurrences_zero _ e2 (Hd k Hk)).
    + rewrite (occurrences_zero k e1) by (intros H; exact (Hd k H Hk)).
      now destruct (occurrences k e2 =? 0).
  - rewrite compare_elements_unordered_steps, Hpairs.
    rewrite Ht, str_eqb_refl. simpl. rewrite <- Ht.
    rewrite <- reconcile_app. now rewrite app_logs_nil_r.
Qed.

Lemma disjoint_children_all_missing_witness :
  recursion_pairs first_seen
    (parent_of "p" [mkElement (py "c"%string) [] (Some (py "foo"%string)) []])
    (parent_of "p" [mkElement (py "c"%string) [] (Some (py "bar"%string)) []])
  = [].
Proof.
  apply (@disjoint_children_all_missing first_seen
           (parent_of "p"
              [mkElement (py "c"%string) [] (Some (py "foo"%string)) []])
           (parent_of "p"
              [mkElement (py "c"%string) [] (Some (py "bar"%string)) []])
           no_logs (py "/"%string)).
  - exact first_seen_faithful.
  - reflexivity.
  - intros c1 c2 [<-|[]] [<-|[]]. discriminate.
Defined.

(** ** The matches log and the root tags *)

(** X10: the matches log stays empty exactly when the tags of the two
    compared nodes differ; otherwise it starts with the "Matching tags"
    record of the pair. *)
Theorem matches_empty_iff_tags_differ (order : KeyOrder) (e1 e2 : Element)
    (path : str) :
  let out := compare_elements_unordered order e1 e2 no_logs path in
  (matches out = [] <-> tag e1 <> tag e2)
  /\ (tag e1 = tag e2 ->
      exists rest, matches out = MatchingTags path (tag e1) :: rest).
Proof.
  cbv zeta. split.
  - rewrite matches_emitted.
    destruct (str_eqb (tag e1) (tag e2)) eqn:E; simpl negb; cbv iota.
    + apply str_eqb_eq in E. split; [discriminate | contradiction].
    + split; trivial. intros _ H. apply str_eqb_eq in H. congruence.
  - apply matches_head.
Qed.

(** ** Where the records point *)

Lemma reconcile_key_location (e1 e2 : Element) at_ k r :
  In r (differences
          (reconcile_key (group_by element_signature (children e1))
             (group_by element_signature (children e2)) at_ no_logs k)
        ++ matches
             (reconcile_key (group_by element_signature (children e1))
                (group_by element_signature (children e2)) at_ no_logs k)) ->
  location r = at_.
Proof.
  rewrite reconcile_key_occurrences. cbv zeta.
  repeat match goal with
         | |- context [if ?c then _ else _] => destruct c
         end; simpl; intros [<-|[]]; reflexivity.
Qed.

Lemma child_path_app (path t s : str) :
  child_path path t ++ s = path ++ (py "/"%string ++ t ++ s).
Proof. unfold child_path. now rewrite <- !app_assoc. Qed.

Lemma records_location (order : KeyOrder) (e1 : Element) :
  forall e2 path r,
    In r (differences (compare_elements_unordered order e1 e2 no_logs path)
          ++ matches (compare_elements_unordered order e1 e2 no_logs path)) ->
    location r = path
    \/ exists rest, location r = child_path path (tag e1) ++ rest.
Proof.
  induction e1 as [t a x cs IH] using Element_induction.
  intros e2 path r. rewrite differences_emitted, matches_emitted.
  destruct (negb (str_eqb (tag (mkElement t a x cs)) (tag e2))).
  - simpl. intros [<-|[]]. now left.
  - rewrite Forall_forall in IH. simpl tag in *.
    assert (forall c1 c2,
               In (c1, c2)
                  (recursion_pairs order (mkElement t a x cs) e2) ->
               In r (differences
                       (compare_elements_unordered order c1 c2 no_logs
                          (child_path path t))
                     ++ matches
                       (compare_elements_unordered order c1 c2 no_logs
                          (child_path path t))) ->
               exists rest, location r = child_path path t ++ rest) as Hrec.
    { intros c1 c2 Hp H. apply recursion_pairs_In in Hp.
      destruct Hp as [Hc1 _]. simpl in Hc1.
      destruct (IH c1 Hc1 c2 (child_path path t) r H) as [E|[rest E]].
      - exists []. now rewrite app_nil_r.
      - rewrite E, child_path_app. eauto. }
    assert (forall k,
               In r (differences
                       (reconcile_key
                          (group_by element_signature
                             (children (mkElement t a x cs)))
                          (group_by element_signature (children e2))
                          (child_path path t) no_logs k)
                     ++ matches
                       (reconcile_key
                          (group_by element_signature
                             (children (mkElement t a x cs)))
                          (group_by element_signature (children e2))
                          (child_path path t) no_logs k)) ->
               exists rest, location r = child_path path t ++ rest) as Hkey.
    { intros k H. exists []. rewrite app_nil_r.
      now apply reconcile_key_location in H. }
    assert (In r (differences
                    (attribute_step (mkElement t a x cs) e2 path no_logs)
                  ++ matches
                    (attribute_step (mkElement t a x cs) e2 path no_logs)) ->
            exists rest, location r = child_path path t ++ rest) as Hattr.
    { unfold attribute_step. simpl tag. simpl attrib.
      destruct (negb (dict_eqb a (attrib e2))); simpl;
        intros [<-|[]]; exists []; now rewrite app_nil_r. }
    intros H. apply in_app_or in H. destruct H as [H|H].
    + right. rewrite !in_app_iff, !in_flat_map in H.
      destruct H as [H|[[k [_ H]]|[[c1 c2] [Hp H]]]].
      * apply Hattr. apply in_or_app. now left.
      * apply (Hkey k). apply in_or_app. now left.
      * apply (Hrec c1 c2 Hp). apply in_or_app. now left.
    + rewrite !in_app_iff, !in_flat_map in H.
      destruct H as [[<-|H]|[[k [_ H]]|[[c1 c2] [Hp H]]]].
      * now left.
      * right. apply Hattr. apply in_or_app. now right.
      * right. apply (Hkey k). apply in_or_app. now right.
      * right. apply (Hrec c1 c2 Hp). apply in_or_app. now right.
Qed.

(** X11: every record a call appends, to either log, cites a place under
    the path the call was given.  The tag record of the two nodes cites
    the path itself; every other record, those of the recursive calls
    included, cites the path extended by "/" (code point 47) and the tag
    of the first node, or a longer extension of that. *)
Theorem records_under_path (order : KeyOrder) (e1 e2 : Element)
    (path : str) (r : LogEntry) :
  In r (differences (compare_elements_unordered order e1 e2 no_logs path)
        ++ matches (compare_elements_unordered order e1 e2 no_logs path)) ->
  (r = DifferentTags path (tag e1) (tag e2) /\ tag e1 <> tag e2)
  \/ (r = MatchingTags path (tag e1) /\ tag e1 = tag e2)
  \/ (tag e1 = tag e2
      /\ exists rest, location r = path ++ [47%N] ++ tag e1 ++ rest).
Proof.
  assert (forall rest,
             path ++ [47%N] ++ tag e1 ++ rest =
             child_path path (tag e1) ++ rest) as Hp
      by (intros rest; unfold child_path; now rewrite <- !app_assoc).
  rewrite differences_emitted, matches_emitted.
  destruct (str_eqb (tag e1) (tag e2)) eqn:Et; simpl negb; cbv iota.
  - apply str_eqb_eq in Et. intros H.
    assert (r = MatchingTags path (tag e1)
            \/ exists rest, location r = child_path path (tag e1) ++ rest)
      as [->|[rest E]]; [| right; left; now split
                         | right; right; split; trivial; exists rest;
                           now rewrite Hp].
    rewrite !in_app_iff, !in_flat_map in H.
    assert (forall k,
               In r (differences
                       (reconcile_key
                          (group_by element_signature (children e1))
                          (group_by element_signature (children e2))
                          (child_path path (tag e1)) no_logs k)
                     ++ matches
                       (reconcile_key
                          (group_by element_signature (children e1))
                          (group_by element_signature (children e2))
                          (child_path path (tag e1)) no_logs k)) ->
               exists rest, location r = child_path path (tag e1) ++ rest)
      as Hkey.
    { intros k Hk. exists []. rewrite app_nil_r.
      now apply reconcile_key_location in Hk. }
    assert (In r (differences (attribute_step e1 e2 path no_logs)
                  ++ matches (attribute_step e1 e2 path no_logs)) ->
            exists rest, location r = child_path path (tag e1) ++ rest)
      as Hattr.
    { unfold attribute_step.
      destruct (negb (dict_eqb (attrib e1) (attrib e2))); simpl;
        intros [<-|[]]; exists []; now rewrite app_nil_r. }
    assert (forall c1 c2,
               In r (differences
                       (compare_elements_unordered order c1 c2 no_logs
                          (child_path path (tag e1)))
                     ++ matches
                       (compare_elements_unordered order c1 c2 no_logs
                          (child_path path (tag e1)))) ->
               exists rest, location r = child_path path (tag e1) ++ rest)
      as Hrec.
    { intros c1 c2 Hc.
      destruct (records_location order c1 c2 _ r Hc) as [E|[rest E]].
      - exists []. now rewrite app_nil_r.
      - rewrite E, child_path_app. eauto. }
    destruct H as [[H|[[k [_ H]]|[[c1 c2] [_ H]]]]
                  |[[<-|H]|[[k [_ H]]|[[c1 c2] [_ H]]]]].
    + right. apply Hattr, in_or_app. now left.
    + right. apply (Hkey k), in_or_app. now left.
    + right. apply (Hrec c1 c2), in_or_app. now left.
    + now left.
    + right. apply Hattr, in_or_app. now right.
    + right. apply (Hkey k), in_or_app. now right.
    + right. apply (Hrec c1 c2), in_or_app. now right.
  - simpl. intros [<-|[]]. left. split; trivial.
    intros E. rewrite E, str_eqb_refl in Et. discriminate.
Qed.

(** ** Reordered siblings with distinct signatures *)

Lemma same_groups_no_difference (order : KeyOrder) t a x x' cs cs' path :
  faithful order ->
  well_formed (mkElement t a x cs) = true ->
  (forall key, with_key element_signature key cs' =
               with_key element_signature key cs) ->
  differences
    (compare_elements_unordered order (mkElement t a x cs)
       (mkElement t a x' cs') no_logs path) = [].
Proof.
  intros Hf Hwf Hg.
  pose proof (well_formed_inv _ _ _ _ Hwf) as [Ha Hcs].
  assert (forall key, occurrences key (mkElement t a x' cs') =
                      occurrences key (mkElement t a x cs)) as Hocc.
  { intros key. unfold occurrences. simpl.
    now rewrite <- !with_key_length, Hg. }
  rewrite differences_emitted. simpl tag. rewrite str_eqb_refl.
  simpl negb. cbv iota. unfold attribute_step. simpl attrib.
  rewrite dict_eqb_refl by trivial. simpl.
  rewrite !flat_map_nil; trivial.
  - intros [c1 c2] Hin. simpl.
    assert (c1 = c2 /\ In c1 cs) as [<- Hc].
    { unfold recursion_pairs in Hin. cbv zeta in Hin.
      apply in_flat_map in Hin. destruct Hin as [k [_ Hin]].
      rewrite !group_get_group_by in Hin. simpl in Hin. rewrite Hg in Hin.
      split; [now apply in_combine_same in Hin|].
      apply in_combine_l in Hin. now apply with_key_In in Hin. }
    apply differences_self; auto.
  - intros k Hin.
    destruct (Hf (keys (group_by element_signature cs))
                 (keys (group_by element_signature cs'))) as [[_ Hu] _].
    apply Hu in Hin.
    change cs with (children (mkElement t a x cs)) in Hin at 1.
    change cs' with (children (mkElement t a x' cs')) in Hin.
    rewrite !keys_occurrences, Hocc in Hin.
    change cs with (children (mkElement t a x cs)) at 1.
    change cs' with (children (mkElement t a x' cs')).
    rewrite reconcile_key_occurrences. cbv zeta. rewrite Hocc.
    destruct (occurrences k (mkElement t a x cs) =? 0) eqn:E.
    + apply Nat.eqb_eq in E. lia.
    + now rewrite Nat.eqb_refl.
Qed.

Lemma filter_perm (A : Type) (p : A -> bool) (l l' : list A) :
  Permutation l l' -> Permutation (filter p l) (filter p l').
Proof.
  induction 1 as [|y l l' _ IH|y z l|l l' l'' _ IH1 _ IH2]; simpl; trivial.
  - destruct (p y); [now constructor | exact IH].
  - destruct (p y), (p z); trivial. apply perm_swap.
  - now transitivity (filter p l').
Qed.

Lemma short_perm_eq (A : Type) (l l' : list A) :
  length l <= 1 -> Permutation l l' -> l = l'.
Proof.
  intros Hl HP. pose proof (Permutation_length HP) as Hlen.
  destruct l as [|y [|z l]], l' as [|y' [|z' l']]; simpl in *;
    try discriminate; try lia; trivial.
  f_equal. now apply Permutation_length_1.
Qed.

(** X12: where sibling order does not matter.  When the children of a
    well-formed node have pairwise distinct signatures, comparing the node
    with a copy whose children are in any other order (and whose own text
    may differ) reports no difference. *)
Theorem distinct_signatures_order_insensitive (order : KeyOrder)
    (t : str) (a : Attrib) (x x' : option str) (cs cs' : list Element)
    (path : str) :
  faithful order ->
  well_formed (mkElement t a x cs) = true ->
  NoDup (map element_signature cs) ->
  Permutation cs cs' ->
  differences
    (compare_elements_unordered order (mkElement t a x cs)
       (mkElement t a x' cs') no_logs path) = [].
Proof.
  intros Hf Hwf Hd HP. apply same_groups_no_difference; trivial.
  intros key. symmetry. apply short_perm_eq.
  - rewrite with_key_length. now apply NoDup_count_occ.
  - now apply filter_perm.
Qed.

Lemma distinct_signatures_order_insensitive_witness :
  differences
    (compare_elements_unordered first_seen
       (parent_of "p" [empty_element "c"; empty_element "d"])
       (parent_of "p" [empty_element "d"; empty_element "c"])
       no_logs (py "/"%string)) = [].
Proof.
  apply (@distinct_signatures_order_insensitive first_seen (py "p"%string)
           [] None None [empty_element "c"; empty_element "d"]
           [empty_element "d"; empty_element "c"] (py "/"%string)).
  - exact first_seen_faithful.
  - reflexivity.
  - repeat constructor; simpl; intuition discriminate.
  - apply perm_swap.
Defined.

(** ** Witnesses and checks of the notions above *)

Lemma last_seen_faithful : faithful last_seen.
Proof.
  intros keys1 keys2.
  destruct (first_seen_faithful keys1 keys2) as [[Hd Hu] [Hd' Hi]].
  simpl. split; split.
  - now apply NoDup_rev.
  - intros k. rewrite <- in_rev. apply Hu.
  - now apply NoDup_rev.
  - intros k. rewrite <- in_rev. apply Hi.
Qed.

Lemma outcome_independent_of_iteration_order_witness :
  printed (compare_xml_files last_seen (Some doc_cd) (Some doc_cce)) =
  printed (compare_xml_files first_seen (Some doc_cd) (Some doc_cce)).
Proof.
  exact (proj2 (proj2 (@outcome_independent_of_iteration_order first_seen
                         last_seen doc_cd doc_cce (py "/"%string)
                         first_seen_faithful last_seen_faithful))).
Defined.

Lemma records_under_path_witness :
  tag doc_cc = tag doc_c
  /\ exists rest,
      location
        (DifferentCount (element_signature (empty_element "c"))
           (py "//p"%string) 2 1) =
      py "/"%string ++ [47%N] ++ tag doc_cc ++ rest.
Proof.
  destruct (@records_under_path first_seen doc_cc doc_c (py "/"%string)
              (DifferentCount (element_signature (empty_element "c"))
                 (py "//p"%string) 2 1))
    as [[H _]|[[H _]|H]].
  - vm_compute. now left.
  - discriminate H.
  - discriminate H.
  - exact H.
Defined.

Lemma similar_refl (e : Element) : similar e e.
Proof.
  induction e as [t a x cs IH] using Element_induction.
  apply similar_node with (pairs := map (fun c => (c, c)) cs).
  - intros name. reflexivity.
  - rewrite map_map. simpl. now rewrite map_id.
  - rewrite map_map. simpl. now rewrite map_id.
  - apply Forall_forall. intros p Hp. apply in_map_iff in Hp.
    destruct Hp as [c [<- _]]. reflexivity.
  - apply Forall_forall. intros p Hp. apply in_map_iff in Hp.
    destruct Hp as [c [<- Hc]]. simpl. rewrite Forall_forall in IH. auto.
Qed.

Lemma similar_inv (e1 e2 : Element) :
  similar e1 e2 ->
  tag e1 = tag e2 /\ same_mapping (attrib e1) (attrib e2)
  /\ length (children e1) = length (children e2)
  /\ Permutation (map element_signature (children e1))
                 (map element_signature (children e2)).
Proof.
  intros H. inversion H as [t a a' x x' cs cs' pairs Hm P1 P2 Hs Hr]; subst.
  simpl. split; [reflexivity|]. split; [exact Hm|]. split.
  - rewrite <- (Permutation_length P1), <- (Permutation_length P2).
    now rewrite !length_map.
  - rewrite <- P1, <- P2, !map_map. apply Permutation_refl'.
    apply map_ext_in. intros p Hp. rewrite Forall_forall in Hs.
    now apply Hs.
Qed.

Lemma identical_means_similar_witness : similar doc_xy doc_xy.
Proof.
  apply (proj2 (@identical_means_similar first_seen doc_xy doc_xy
                  first_seen_faithful eq_refl eq_refl)).
  reflexivity.
Defined.

(** The two documents of [permuted_siblings_differ] are similar, though
    reported different. *)
Example doc_xy_similar_doc_yx : similar doc_xy doc_yx.
Proof.
  apply similar_node
    with (pairs := [(parent_of "c" [empty_element "x"],
                     parent_of "c" [empty_element "x"]);
                    (parent_of "c" [empty_element "y"],
                     parent_of "c" [empty_element "y"])]).
  - intros name. reflexivity.
  - reflexivity.
  - apply perm_swap.
  - repeat constructor.
  - repeat constructor; apply similar_refl.
Qed.
